(** * LOD visibility scheduler and budgeted node cache

    A shallow embedding of the two TypeScript classes of the point-cloud
    viewer, [LRU] (utils/lru.ts) and [Potree] (potree.ts), and proofs of the
    properties their specification states about them.

    Conventions of the embedding.
    - Point counts, node ids and octree levels are integer-valued JavaScript
      numbers: they are [Z].  Weights, distances and pixel sizes are IEEE
      doubles: they are Rocq's primitive [float].
    - Objects that are shared and mutated through references (the items of
      the recency list) live in an explicit store, keyed by reference.
    - Octree nodes are used through their interface only
      ([IPointCloudTreeNode]); a node is an object reference and its fields
      are read through the interface.
    - three.js and [Math.tan] are outside the repository: they are the
      operations of the class [ThreeJS].
    - A call either returns, throws a [TypeError] (a property read on
      [null] or [undefined]) or, for the two loops that are bounded by fuel
      here, runs out of fuel. *)

From Stdlib Require Import ZArith Lia Floats.
From stdpp Require Import base option list gmap infinite strings.

(* [set_solver] clears hypotheses it has already used *)
#[local] Set Warnings "-clear-no-such-hyp".

(** ** Results of calls *)

Inductive result (A : Type) : Type :=
| Ok (a : A)
| TypeError
| OutOfFuel.
Arguments Ok {A} a.
Arguments TypeError {A}.
Arguments OutOfFuel {A}.

(** ** The rendering backend (three.js) and [Math] *)

Class ThreeJS : Type := {
  Vector3 : Type;
  Box3 : Type;
  Matrix4 : Type;
  Frustum : Type;
  (* Vector3.distanceTo *)
  distanceTo : Vector3 → Vector3 → float;
  (* new Vector3().setFromMatrixPosition(m) *)
  setFromMatrixPosition : Matrix4 → Vector3;
  (* Matrix4.identity(), a.multiply(b), m.invert() *)
  identity : Matrix4;
  multiply : Matrix4 → Matrix4 → Matrix4;
  invert : Matrix4 → Matrix4;
  (* new Frustum().setFromProjectionMatrix(m), frustum.intersectsBox(box) *)
  setFromProjectionMatrix : Matrix4 → Frustum;
  frustumIntersectsBox : Frustum → Box3 → bool;
  (* box.applyMatrix4(m), box.intersectsBox(other) *)
  applyMatrix4 : Box3 → Matrix4 → Box3;
  intersectsBox : Box3 → Box3 → bool;
  (* new Box3(new Vector3(-0.5, -0.5, -0.5), new Vector3(0.5, 0.5, 0.5)) *)
  unitBox : Box3;
  (* Math.tan *)
  Math_tan : float → float
}.

(* Math.PI *)
Definition Math_PI : float := 0x1.921fb54442d18p+1%float.

(* Number.MAX_VALUE *)
Definition MAX_VALUE : float := 0x1.fffffffffffffp+1023%float.

Record Sphere `{ThreeJS} : Type := mkSphere {
  center : Vector3;
  radius : float
}.
Arguments mkSphere {_} center radius.

(** ** Octree nodes (types.ts, type-predicates.ts) *)

Module TreeNode.

(** [IPointCloudTreeNode], with the members the two classes read, and the
    members of its two implementations that [Potree] reads after narrowing:
    [failed] of a geometry node and [geometryNode] of a tree node.
    [traverse n] is the sequence of nodes on which [n.traverse(cb)] calls
    [cb]. *)
Class IPointCloudTreeNode `{ThreeJS} (Node : Type) : Type := {
  id : Node → Z;
  numPoints : Node → Z;
  level : Node → Z;
  loaded : Node → bool;
  boundingBox : Node → Box3;
  boundingSphere : Node → Sphere;
  children : Node → list (option Node);
  traverse : Node → list Node;
  isGeometryNode : Node → bool;
  isTreeNode : Node → bool;
  failed : Node → bool;
  geometryNode : Node → Node
}.

End TreeNode.

(** ** The node cache (utils/lru.ts) *)

Module LRU.
Section lru.
Context `{ThreeJS} {Node : Type} `{!TreeNode.IPointCloudTreeNode Node}.
Local Open Scope Z_scope.

(** A reference to an [LRUItem] object. *)
Definition ref : Type := positive.

Record LRUItem : Type := mkItem {
  node : Node;
  next : option ref;
  previous : option ref
}.

(** The fields of the class, and the store of the items it has created. *)
Record LRU : Type := mk {
  first : option ref;
  last : option ref;
  numPoints : Z;
  items : gmap Z ref;
  pointBudget : Z;
  store : gmap ref LRUItem
}.

(* new LRU(pointBudget) *)
Definition new (pointBudget : Z) : LRU :=
  mk None None 0 ∅ pointBudget ∅.

(** Methods run in a state monad over the cache, with exceptions. *)
Definition M (A : Type) : Type := LRU → result (A * LRU).

#[global] Instance M_ret : MRet M := λ A a c, Ok (a, c).
#[global] Instance M_bind : MBind M := λ A B f m c,
  match m c with
  | Ok (a, c') => f a c'
  | TypeError => TypeError
  | OutOfFuel => OutOfFuel
  end.

Definition throw {A} : M A := λ _, TypeError.
Definition timeout {A} : M A := λ _, OutOfFuel.
Definition get {A} (f : LRU → A) : M A := λ c, Ok (f c, c).
Definition modify (f : LRU → LRU) : M unit := λ c, Ok ((), f c).

(* field writes of the cache *)
Definition set_first (v : option ref) : M unit :=
  modify (λ c, mk v (last c) (numPoints c) (items c) (pointBudget c) (store c)).
Definition set_last (v : option ref) : M unit :=
  modify (λ c, mk (first c) v (numPoints c) (items c) (pointBudget c) (store c)).
Definition set_numPoints (v : Z) : M unit :=
  modify (λ c, mk (first c) (last c) v (items c) (pointBudget c) (store c)).
Definition set_items (v : gmap Z ref) : M unit :=
  modify (λ c, mk (first c) (last c) (numPoints c) v (pointBudget c) (store c)).
Definition set_pointBudget (v : Z) : M unit :=
  modify (λ c, mk (first c) (last c) (numPoints c) (items c) v (store c)).
Definition set_store (v : gmap ref LRUItem) : M unit :=
  modify (λ c, mk (first c) (last c) (numPoints c) (items c) (pointBudget c) v).

(* new LRUItem(node): next and previous start as null *)
Definition new_LRUItem (n : Node) : M ref :=
  h ← get store;
  let r := fresh (dom h) in
  set_store (<[r := mkItem n None None]> h);;
  mret r.

(* reads and writes of an item's fields *)
Definition read (r : ref) : M LRUItem :=
  h ← get store;
  match h !! r with
  | Some it => mret it
  | None => throw
  end.
Definition write_next (r : ref) (v : option ref) : M unit :=
  h ← get store;
  set_store (alter (λ it, mkItem (node it) v (previous it)) r h).
Definition write_previous (r : ref) (v : option ref) : M unit :=
  h ← get store;
  set_store (alter (λ it, mkItem (node it) (next it) v) r h).

(* the object behind a reference that may be null *)
Definition deref (v : option ref) : M ref :=
  match v with
  | Some r => mret r
  | None => throw
  end.

(* get size() *)
Definition size (c : LRU) : nat := base.size (items c).

(* has(node) *)
Definition has (n : Node) (c : LRU) : bool :=
  bool_decide (is_Some (items c !! TreeNode.id n)).

(* private addNew(node) *)
Definition addNew (n : Node) : M unit :=
  item ← new_LRUItem n;
  lst ← get last;
  write_previous item lst;;
  set_last (Some item);;
  it ← read item;
  match previous it with
  | Some p => write_next p (Some item)
  | None => mret ()
  end;;
  fst ← get first;
  match fst with
  | None => set_first (Some item)
  | Some _ => mret ()
  end;;
  idx ← get items;
  set_items (<[TreeNode.id n := item]> idx);;
  pts ← get numPoints;
  set_numPoints (pts + TreeNode.numPoints n).

(* the five statements that move [item] behind the current last item *)
Definition moveToEnd (item : ref) : M unit :=
  lst ← get last;
  write_previous item lst;;
  write_next item None;;
  set_last (Some item);;
  it ← read item;
  match previous it with
  | Some p => write_next p (Some item)
  | None => mret ()
  end.

(* private touchExisting(item) *)
Definition touchExisting (item : ref) : M unit :=
  it ← read item;
  match previous it with
  | None =>
      match next it with
      | Some nx =>
          set_first (Some nx);;
          f ← get first;
          f ← deref f;
          write_previous f None;;
          moveToEnd item
      | None => mret ()
      end
  | Some p =>
      match next it with
      | None => mret ()
      | Some nx =>
          write_next p (Some nx);;
          write_previous nx (Some p);;
          moveToEnd item
      end
  end.

(* touch(node) *)
Definition touch (n : Node) : M unit :=
  if negb (TreeNode.loaded n) then mret ()
  else
    idx ← get items;
    match idx !! TreeNode.id n with
    | Some item => touchExisting item
    | None => addNew n
    end.

(* remove(node) *)
Definition remove (n : Node) : M unit :=
  idx ← get items;
  match idx !! TreeNode.id n with
  | None => mret ()
  | Some item =>
      (if decide (base.size idx = 1%nat) then
         set_first None;;
         set_last None
       else
         it ← read item;
         match previous it with
         | None =>
             set_first (next it);;
             f ← get first;
             f ← deref f;
             write_previous f None
         | Some _ => mret ()
         end;;
         it ← read item;
         match next it with
         | None =>
             set_last (previous it);;
             l ← get last;
             l ← deref l;
             write_next l None
         | Some _ => mret ()
         end;;
         it ← read item;
         match previous it, next it with
         | Some p, Some nx =>
             write_next p (Some nx);;
             write_previous nx (Some p)
         | _, _ => mret ()
         end);;
      idx ← get items;
      set_items (delete (TreeNode.id n) idx);;
      pts ← get numPoints;
      set_numPoints (pts - TreeNode.numPoints n)
  end.

(* getLRUItem() *)
Definition getLRUItem : M (option Node) :=
  f ← get first;
  match f with
  | Some r => it ← read r; mret (Some (node it))
  | None => mret None
  end.

(* the loop [for (const n of nodesToDispose) { n.dispose(); this.remove(n); }]:
   [dispose] is the node's own teardown and touches no field of the cache *)
Fixpoint removeAll (ns : list Node) : M unit :=
  match ns with
  | [] => mret ()
  | n :: ns' => remove n;; removeAll ns'
  end.

(* disposeSubtree(node) *)
Definition disposeSubtree (n : Node) : M unit :=
  let nodesToDispose :=
    n :: filter (λ d, TreeNode.loaded d = true) (TreeNode.traverse n) in
  removeAll nodesToDispose.

(* the loop of freeMemory(); [fuel] bounds the number of its iterations *)
Fixpoint freeMemoryLoop (fuel : nat) : M unit :=
  pts ← get numPoints;
  budget ← get pointBudget;
  if decide (pts > budget * 2) then
    match fuel with
    | O => timeout
    | S fuel' =>
        n ← getLRUItem;
        match n with
        | Some n => disposeSubtree n
        | None => mret ()
        end;;
        freeMemoryLoop fuel'
    end
  else mret ().

(* freeMemory() *)
Definition freeMemory (fuel : nat) : M unit :=
  sz ← get size;
  if decide (sz ≤ 1)%nat then mret ()
  else freeMemoryLoop fuel.

(** Running a method for its effect on the cache. *)
Definition exec {A} (m : M A) (c : LRU) : result LRU :=
  match m c with
  | Ok (_, c') => Ok c'
  | TypeError => TypeError
  | OutOfFuel => OutOfFuel
  end.

(** *** Reading the list of the cache *)

(** The nodes met from [cur] on, following [field] ([next] or [previous])
    until [null], over at most [fuel] items. *)
Fixpoint walk (field : LRUItem → option ref) (h : gmap ref LRUItem)
    (fuel : nat) (cur : option ref) : option (list Node) :=
  match cur with
  | None => Some []
  | Some r =>
      match fuel with
      | O => None
      | S fuel' =>
          match h !! r with
          | Some it => cons (node it) <$> walk field h fuel' (field it)
          | None => None
          end
      end
  end.

(** The nodes of the cache from [first] along [next], and from [last] along
    [previous]; there are [size] of them when the list is well formed. *)
Definition forward (c : LRU) : option (list Node) :=
  walk next (store c) (size c) (first c).
Definition backward (c : LRU) : option (list Node) :=
  walk previous (store c) (size c) (last c).

(** A sequence of calls of [touch]. *)
Fixpoint touchAll (ns : list Node) : M unit :=
  match ns with
  | [] => mret ()
  | n :: ns' => touch n;; touchAll ns'
  end.

(** The loaded nodes of a sequence of touches, each once, in the order of
    their latest touch. *)
Definition recency `{!EqDecision Node} (ns : list Node) : list Node :=
  remove_dups (filter (λ n, TreeNode.loaded n = true) ns).

(** *** Well-formed caches *)

Definition hd_ref (ls : list (ref * Node)) (d : option ref) : option ref :=
  match ls with
  | [] => d
  | x :: _ => Some x.1
  end.

Definition last_ref (ls : list (ref * Node)) (d : option ref) : option ref :=
  match list.last ls with
  | Some x => Some x.1
  | None => d
  end.

(** [chain h p ls e]: in the store [h] the items [ls] are linked in this
    order, the first one after [p] and the last one before [e]. *)
Fixpoint chain (h : gmap ref LRUItem) (p : option ref)
    (ls : list (ref * Node)) (e : option ref) : Prop :=
  match ls with
  | [] => True
  | x :: ls' =>
      h !! x.1 = Some (mkItem x.2 (hd_ref ls' e) p) ∧ chain h (Some x.1) ls' e
  end.

Definition index_of (ls : list (ref * Node)) : list (Z * ref) :=
  (λ x, (TreeNode.id x.2, x.1)) <$> ls.

Definition total (ns : list Node) : Z :=
  foldr (λ n a, TreeNode.numPoints n + a) 0 ns.

(** [repr c ls]: the cache [c] holds the items [ls], least recent first:
    they form its doubly linked list, no node has two items, [items] maps
    the id of each node to its item and [numPoints] is the total of the
    nodes' points. *)
Record repr (c : LRU) (ls : list (ref * Node)) : Prop := mkRepr {
  repr_chain : chain (store c) None ls None;
  repr_first : first c = hd_ref ls None;
  repr_last : last c = last_ref ls None;
  repr_refs : NoDup ls.*1;
  repr_ids : NoDup (TreeNode.id <$> ls.*2);
  repr_items : items c = list_to_map (index_of ls);
  repr_numPoints : numPoints c = total ls.*2
}.

Definition wellFormed (c : LRU) : Prop := ∃ ls, repr c ls.

(** Nodes of one id have one number of points (an id names one node). *)
Definition numPoints_by_id : Prop :=
  ∀ a b : Node, TreeNode.id a = TreeNode.id b →
                TreeNode.numPoints a = TreeNode.numPoints b.

(** A method that leaves [pointBudget] as it is. *)
Definition keeps_budget {A} (m : M A) : Prop :=
  ∀ c a c', m c = Ok (a, c') → pointBudget c' = pointBudget c.

End lru.
Arguments LRUItem : clear implicits.
Arguments LRU : clear implicits.
Arguments M : clear implicits.
End LRU.

(** ** Eviction, on the list of the resident nodes *)

Module Eviction.
Section eviction.
Context `{ThreeJS} {Node : Type} `{!TreeNode.IPointCloudTreeNode Node}.
Local Open Scope Z_scope.

(** The subtree of a node, as [disposeSubtree(node)] collects it: the node
    and, of the nodes that [node.traverse] visits, those that are loaded. *)
Definition subtree (n : Node) : list Node :=
  n :: filter (λ d, TreeNode.loaded d = true) (TreeNode.traverse n).

(** What freeMemory() is to evict, read on the list of the resident nodes
    with the least recent one first: while the points of the list exceed
    twice the budget, the subtree of its first node is taken out of it, the
    number of items not being tested.  [fuel] bounds the number of
    rounds. *)
Fixpoint evictLeastRecent (fuel : nat) (budget : Z) (ns : list Node)
  : option (list Node) :=
  if decide (LRU.total ns > 2 * budget) then
    match fuel with
    | O => None
    | S fuel' =>
        match ns with
        | [] => evictLeastRecent fuel' budget []
        | leastRecent :: _ =>
            evictLeastRecent fuel' budget
              (filter (λ m, TreeNode.id m ∉ TreeNode.id <$> subtree leastRecent) ns)
        end
    end
  else Some ns.

End eviction.
End Eviction.

(** ** The priority queue (utils/binary-heap.ts)

    [Potree] uses the queue through three operations: the constructor, which
    takes the score function, [push] and [pop]. *)

Class BinaryHeap (T Q : Type) : Type := {
  newBinaryHeap : (T → float) → Q;
  push : T → Q → Q;
  pop : Q → option (T * Q)
}.

Module ListHeap.
Section list_heap.
Context {T : Type}.

(** Modelled from the spec: the class BinaryHeap of utils/binary-heap.ts,
    which is not among the sources.  [pop] removes and returns the item the
    queue ranks first, the one whose score is minimal, and signals an empty
    queue by returning nothing.  The queue is kept here as the list of its
    items in the order of their insertion; among items of equal score the
    earliest inserted is returned (the spec leaves ties open). *)
Record t : Type := mkHeap {
  scoreFunction : T → float;
  content : list T
}.

(* an item of minimal score in [x :: l] and its position, [x] standing at
   position [i] of the queue and being the best of the items before [l] *)
Fixpoint argmin (score : T → float) (k : nat) (x : T) (i : nat) (l : list T)
  : nat * T :=
  match l with
  | [] => (k, x)
  | y :: l' =>
      if PrimFloat.ltb (score y) (score x)
      then argmin score (S i) y (S i) l'
      else argmin score k x (S i) l'
  end.

Definition heap_pop (q : t) : option (T * t) :=
  match content q with
  | [] => None
  | x :: l =>
      let '(k, y) := argmin (scoreFunction q) 0 x 0 l in
      Some (y, mkHeap (scoreFunction q) (delete k (content q)))
  end.

Definition list_heap : BinaryHeap T t := {|
  newBinaryHeap := λ score, mkHeap score [];
  push := λ x q, mkHeap (scoreFunction q) (content q ++ [x]);
  pop := heap_pop
|}.

End list_heap.
Arguments t : clear implicits.
End ListHeap.

(** ** Point clouds, cameras, renderers (collaborators of [Potree]) *)

(* enum ClipMode of materials *)
Inductive ClipMode : Type := DISABLED | CLIP_OUTSIDE | HIGHLIGHT_INSIDE.

#[global] Instance ClipMode_eq_dec : EqDecision ClipMode.
Proof. solve_decision. Defined.

(** The members of a point cloud's material that [shouldClip] reads;
    [clipBoxes] holds the [matrix] of each clip box. *)
Record PointCloudMaterial `{ThreeJS} : Type := mkMaterial {
  numClipBoxes : Z;
  clipMode : ClipMode;
  clipBoxes : list Matrix4
}.
Arguments mkMaterial {_} numClipBoxes clipMode clipBoxes.

(** The members of [PointCloudOctree] that [Potree] reads and writes.
    [initialized] is the result of the method of that name; [matrixWorld] is
    the world matrix after [updateMatrixWorld]. *)
Record PointCloudOctree `{ThreeJS} (Node : Type) : Type := mkPointCloud {
  disposed : bool;
  initialized : bool;
  visible : bool;
  root : option Node;
  maxLevel : option Z;
  minNodePixelSize : float;
  material : PointCloudMaterial;
  matrixWorld : Matrix4;
  numVisiblePoints : Z;
  visibleNodes : list Node;
  visibleGeometry : list Node
}.
Arguments mkPointCloud {_ _}.
Arguments disposed {_ _}.
Arguments initialized {_ _}.
Arguments visible {_ _}.
Arguments root {_ _}.
Arguments maxLevel {_ _}.
Arguments minNodePixelSize {_ _}.
Arguments material {_ _}.
Arguments matrixWorld {_ _}.
Arguments numVisiblePoints {_ _}.
Arguments visibleNodes {_ _}.
Arguments visibleGeometry {_ _}.

(** The members of a three.js camera that [Potree] reads: [type], the
    perspective camera's [fov] (in degrees), the orthographic camera's [top]
    and [bottom], and the three matrices, as they are after
    [camera.updateMatrixWorld(false)]. *)
Record Camera `{ThreeJS} : Type := mkCamera {
  type : string;
  fov : float;
  top : float;
  bottom : float;
  projectionMatrix : Matrix4;
  matrixWorldInverse : Matrix4;
  cameraMatrixWorld : Matrix4
}.
Arguments mkCamera {_}.

(** [renderer.getSize(v).height] and [renderer.getPixelRatio()]. *)
Record WebGLRenderer : Type := mkRenderer {
  height : float;
  pixelRatio : float
}.

(** What [Potree] imports from constants.ts, and the method
    [PointCloudOctree.toTreeNode], which builds the renderable tree node of
    a loaded geometry node. *)
Class Collaborators `{ThreeJS} (Node : Type) : Type := {
  DEFAULT_POINT_BUDGET : Z;
  MAX_LOADS_TO_GPU : nat;
  MAX_NUM_NODES_LOADING : Z;
  PERSPECTIVE_CAMERA : string;
  toTreeNode : PointCloudOctree Node → Node → option Node → Node
}.

(** ** The scheduler (potree.ts) *)

Module Potree.
Section potree.
Context `{ThreeJS} {Node : Type} `{!TreeNode.IPointCloudTreeNode Node}.
Context `{!Collaborators Node}.
Context {Q : Type}.
Local Open Scope Z_scope.

Record QueueItem : Type := mkQueueItem {
  pointCloudIndex : nat;
  weight : float;
  node : Node;
  parent : option Node
}.

Context `{!BinaryHeap QueueItem Q}.

(** The fields of the class. *)
Record Potree : Type := mk {
  _pointBudget : Z;
  maxNumNodesLoading : Z;
  lru : LRU.LRU Node
}.

(* new Potree() *)
Definition new : Potree :=
  mk DEFAULT_POINT_BUDGET MAX_NUM_NODES_LOADING (LRU.new DEFAULT_POINT_BUDGET).

(** [IVisibilityUpdateResult]; [nodeLoadPromises] lists the nodes whose
    [load()] was called, in the order of the calls. *)
Record IVisibilityUpdateResult : Type := mkResult {
  result_visibleNodes : list Node;
  result_numVisiblePoints : Z;
  result_exceededMaxLoadsToGPU : bool;
  result_nodeLoadFailed : bool;
  result_nodeLoadPromises : list Node
}.

(* get pointBudget() *)
Definition pointBudget (p : Potree) : Z := _pointBudget p.

(* set pointBudget(value); [fuel] bounds the loop of freeMemory() *)
Definition set_pointBudget (fuel : nat) (value : Z) (p : Potree)
  : result Potree :=
  if decide (value ≠ _pointBudget p) then
    match LRU.exec (LRU.set_pointBudget value;; LRU.freeMemory fuel) (lru p) with
    | Ok c => Ok (mk value (maxNumNodesLoading p) c)
    | TypeError => TypeError
    | OutOfFuel => OutOfFuel
    end
  else Ok p.

(* private shouldClip(pointCloud, boundingBox) *)
Definition shouldClip (pointCloud : PointCloudOctree Node) (box : Box3) : bool :=
  let m := material pointCloud in
  if decide (numClipBoxes m = 0 ∨ clipMode m ≠ CLIP_OUTSIDE) then false
  else
    let box2 := applyMatrix4 box (matrixWorld pointCloud) in
    negb (existsb
            (λ clipMatrixWorld,
               intersectsBox box2 (applyMatrix4 unitBox clipMatrixWorld))
            (clipBoxes m)).

(** What [updateVisibilityStructures] returns, and the point clouds as it
    leaves them. *)
Record Structures : Type := mkStructures {
  frustums : list Frustum;
  cameraPositions : list Vector3;
  priorityQueue : Q;
  structures_pointClouds : list (PointCloudOctree Node)
}.

(* lines 397-402: the frustum of a cloud, in the cloud's own space *)
Definition cloudFrustum (camera : Camera) (pointCloud : PointCloudOctree Node)
  : Frustum :=
  setFromProjectionMatrix
    (multiply
       (multiply (multiply identity (projectionMatrix camera))
          (matrixWorldInverse camera))
       (matrixWorld pointCloud)).

(* lines 406-412: the position of the camera, in the cloud's own space *)
Definition cloudCameraPosition (camera : Camera)
    (pointCloud : PointCloudOctree Node) : Vector3 :=
  setFromMatrixPosition
    (multiply (multiply identity (invert (matrixWorld pointCloud)))
       (cameraMatrixWorld camera)).

(* the body of the loop of updateVisibilityStructures, for pointClouds[i] *)
Definition structuresStep (camera : Camera) (s : Structures) (i : nat)
    (pointCloud : PointCloudOctree Node) : Structures :=
  if negb (initialized pointCloud) then
    mkStructures (frustums s) (cameraPositions s) (priorityQueue s)
      (structures_pointClouds s ++ [pointCloud])
  else
    let pointCloud' :=
      mkPointCloud (disposed pointCloud) (initialized pointCloud)
        (visible pointCloud) (root pointCloud) (maxLevel pointCloud)
        (minNodePixelSize pointCloud) (material pointCloud)
        (matrixWorld pointCloud) 0 [] [] in
    let queue :=
      match root pointCloud with
      | Some r =>
          if visible pointCloud
          then push (mkQueueItem i MAX_VALUE r None) (priorityQueue s)
          else priorityQueue s
      | None => priorityQueue s
      end in
    mkStructures
      (frustums s ++ [cloudFrustum camera pointCloud])
      (cameraPositions s ++ [cloudCameraPosition camera pointCloud])
      queue
      (structures_pointClouds s ++ [pointCloud']).

Fixpoint structuresLoop (camera : Camera) (s : Structures) (i : nat)
    (pointClouds : list (PointCloudOctree Node)) : Structures :=
  match pointClouds with
  | [] => s
  | pointCloud :: rest =>
      structuresLoop camera (structuresStep camera s i pointCloud) (S i) rest
  end.

(* private updateVisibilityStructures(pointClouds, camera) *)
Definition updateVisibilityStructures
    (pointClouds : list (PointCloudOctree Node)) (camera : Camera) : Structures :=
  structuresLoop camera
    (mkStructures [] [] (newBinaryHeap (λ x, 1 / weight x)%float) [])
    0%nat pointClouds.

(* the screen-space radius of [child], in pixels (lines 278-295) *)
Definition screenPixelRadius (camera : Camera) (halfHeight : float)
    (cameraPosition : Vector3) (child : Node) : float :=
  let sphere := TreeNode.boundingSphere child in
  let distance := distanceTo (center sphere) cameraPosition in
  let radius := radius sphere in
  let projectionFactor :=
    if String.eqb (type camera) PERSPECTIVE_CAMERA then
      let fov := (fov camera * Math_PI / 180)%float in
      let slope := Math_tan (fov / 2)%float in
      (halfHeight / (slope * distance))%float
    else
      (2 * halfHeight / (top camera - bottom camera))%float in
  (radius * projectionFactor)%float.

(* the body of the loop of updateChildVisibility, for children[i] *)
Definition childStep (queueItem : QueueItem)
    (pointCloud : PointCloudOctree Node) (n : Node) (cameraPosition : Vector3)
    (camera : Camera) (halfHeight : float) (queue : Q) (child : option Node) : Q :=
  match child with
  | None => queue
  | Some child =>
      let sphere := TreeNode.boundingSphere child in
      let distance := distanceTo (center sphere) cameraPosition in
      let radius := radius sphere in
      let screenPixelRadius :=
        screenPixelRadius camera halfHeight cameraPosition child in
      if PrimFloat.ltb screenPixelRadius (minNodePixelSize pointCloud) then queue
      else
        let weight :=
          if PrimFloat.ltb distance radius then MAX_VALUE
          else (screenPixelRadius + 1 / distance)%float in
        push (mkQueueItem (pointCloudIndex queueItem) weight child (Some n)) queue
  end.

(* private updateChildVisibility(queueItem, priorityQueue, pointCloud, node,
   cameraPosition, camera, halfHeight) *)
Definition updateChildVisibility (queueItem : QueueItem) (queue : Q)
    (pointCloud : PointCloudOctree Node) (n : Node) (cameraPosition : Vector3)
    (camera : Camera) (halfHeight : float) : Q :=
  foldl (childStep queueItem pointCloud n cameraPosition camera halfHeight)
    queue (TreeNode.children n).

(** The local variables of [updateVisibility] that its loop updates, with
    the objects the loop mutates: the point clouds and the cache. *)
Record Frame : Type := mkFrame {
  frame_numVisiblePoints : Z;
  frame_visibleNodes : list Node;
  unloadedGeometry : list Node;
  loadedToGPUThisFrame : nat;
  exceededMaxLoadsToGPU : bool;
  nodeLoadFailed : bool;
  queue : Q;
  pointClouds : list (PointCloudOctree Node);
  cache : LRU.LRU Node
}.

(** How an iteration of the loop ends: at the [break] of line 156, at the
    [continue] of line 170, at the [continue] of line 192, or at the end of
    the body, which it reaches either after the call of [toTreeNode] at
    line 180 ([Promoted]) or without it ([Expanded]). *)
Inductive Exit : Type := Break | Culled | Failed | Promoted | Expanded.

#[global] Instance Exit_eq_dec : EqDecision Exit.
Proof. solve_decision. Defined.

(* the condition of lines 165-169, evaluated from left to right *)
Definition culled (st : Structures) (pointCloud : PointCloudOctree Node)
    (i : nat) (n : Node) : result bool :=
  let aboveMaxLevel :=
    match maxLevel pointCloud with
    | Some m => bool_decide (TreeNode.level n > m)
    | None => false
    end in
  if aboveMaxLevel then Ok true
  else
    match frustums st !! i with
    | None => TypeError
    | Some frustum =>
        if negb (frustumIntersectsBox frustum (TreeNode.boundingBox n))
        then Ok true
        else Ok (shouldClip pointCloud (TreeNode.boundingBox n))
    end.

(* writes to the members of pointClouds[i] *)
Definition addVisiblePoints (k : Z) (pc : PointCloudOctree Node)
  : PointCloudOctree Node :=
  mkPointCloud (disposed pc) (initialized pc) (visible pc) (root pc)
    (maxLevel pc) (minNodePixelSize pc) (material pc) (matrixWorld pc)
    (numVisiblePoints pc + k) (visibleNodes pc) (visibleGeometry pc).
Definition pushVisibleNode (n : Node) (pc : PointCloudOctree Node)
  : PointCloudOctree Node :=
  mkPointCloud (disposed pc) (initialized pc) (visible pc) (root pc)
    (maxLevel pc) (minNodePixelSize pc) (material pc) (matrixWorld pc)
    (numVisiblePoints pc) (visibleNodes pc ++ [n]) (visibleGeometry pc).
Definition pushVisibleGeometry (n : Node) (pc : PointCloudOctree Node)
  : PointCloudOctree Node :=
  mkPointCloud (disposed pc) (initialized pc) (visible pc) (root pc)
    (maxLevel pc) (minNodePixelSize pc) (material pc) (matrixWorld pc)
    (numVisiblePoints pc) (visibleNodes pc) (visibleGeometry pc ++ [n]).

(* lines 172-173 *)
Definition accept (i : nat) (n : Node) (s : Frame) : Frame :=
  mkFrame (frame_numVisiblePoints s + TreeNode.numPoints n)
    (frame_visibleNodes s) (unloadedGeometry s) (loadedToGPUThisFrame s)
    (exceededMaxLoadsToGPU s) (nodeLoadFailed s) (queue s)
    (alter (addVisiblePoints (TreeNode.numPoints n)) i (pointClouds s))
    (cache s).

(** What lines 177-194 leave: the frame alone at the [continue] of a failed
    node, or else the node the rest of the body goes on with, and the
    frame. *)
Inductive GeometryOutcome : Type :=
| LoadFailed (s : Frame)
| ToTreeNode (n : Node) (s : Frame)
| Unchanged (n : Node) (s : Frame).

(* lines 177-194 *)
Definition geometryStep (i : nat) (pointCloud : PointCloudOctree Node)
    (n : Node) (parentNode : option Node) (s : Frame) : GeometryOutcome :=
  let parentOk :=
    match parentNode with
    | None => true
    | Some p => TreeNode.isTreeNode p
    end in
  if TreeNode.isGeometryNode n && parentOk then
    if TreeNode.loaded n
       && bool_decide (loadedToGPUThisFrame s < MAX_LOADS_TO_GPU)%nat then
      ToTreeNode (toTreeNode pointCloud n parentNode)
        (mkFrame (frame_numVisiblePoints s) (frame_visibleNodes s)
           (unloadedGeometry s) (S (loadedToGPUThisFrame s))
           (exceededMaxLoadsToGPU s) (nodeLoadFailed s) (queue s)
           (pointClouds s) (cache s))
    else if negb (TreeNode.failed n) then
      let exceeded :=
        if TreeNode.loaded n
           && bool_decide (MAX_LOADS_TO_GPU ≤ loadedToGPUThisFrame s)%nat
        then true else exceededMaxLoadsToGPU s in
      Unchanged n
        (mkFrame (frame_numVisiblePoints s) (frame_visibleNodes s)
           (unloadedGeometry s ++ [n]) (loadedToGPUThisFrame s)
           exceeded (nodeLoadFailed s) (queue s)
           (alter (pushVisibleGeometry n) i (pointClouds s)) (cache s))
    else
      LoadFailed
        (mkFrame (frame_numVisiblePoints s) (frame_visibleNodes s)
           (unloadedGeometry s) (loadedToGPUThisFrame s)
           (exceededMaxLoadsToGPU s) true (queue s)
           (pointClouds s) (cache s))
  else Unchanged n s.

(* private updateTreeNodeVisibility(pointCloud, node, visibleNodes); the
   writes to the scene node and to the bounding-box helpers are the
   rendering backend's *)
Definition updateTreeNodeVisibility (i : nat) (n : Node) (s : Frame)
  : result Frame :=
  match LRU.exec (LRU.touch (TreeNode.geometryNode n)) (cache s) with
  | Ok c =>
      Ok (mkFrame (frame_numVisiblePoints s) (frame_visibleNodes s ++ [n])
            (unloadedGeometry s) (loadedToGPUThisFrame s)
            (exceededMaxLoadsToGPU s) (nodeLoadFailed s) (queue s)
            (alter (pushVisibleNode n) i (pointClouds s)) c)
  | TypeError => TypeError
  | OutOfFuel => OutOfFuel
  end.

(* lines 196-203 *)
Definition treeStep (i : nat) (n : Node) (s : Frame) : result Frame :=
  if TreeNode.isTreeNode n then
    match updateTreeNodeVisibility i n s with
    | Ok s' =>
        Ok (mkFrame (frame_numVisiblePoints s') (frame_visibleNodes s')
              (unloadedGeometry s') (loadedToGPUThisFrame s')
              (exceededMaxLoadsToGPU s') (nodeLoadFailed s') (queue s')
              (alter (pushVisibleGeometry (TreeNode.geometryNode n)) i
                 (pointClouds s'))
              (cache s'))
    | TypeError => TypeError
    | OutOfFuel => OutOfFuel
    end
  else Ok s.

(* lines 205-218; the camera position of the cloud exists where its
   frustum does *)
Definition expand (st : Structures) (camera : Camera)
    (renderer : WebGLRenderer) (queueItem : QueueItem) (n : Node) (s : Frame)
  : result Frame :=
  let i := pointCloudIndex queueItem in
  let halfHeight := (0.5 * height renderer * pixelRatio renderer)%float in
  match pointClouds s !! i, cameraPositions st !! i with
  | Some pointCloud, Some cameraPosition =>
      Ok (mkFrame (frame_numVisiblePoints s) (frame_visibleNodes s)
            (unloadedGeometry s) (loadedToGPUThisFrame s)
            (exceededMaxLoadsToGPU s) (nodeLoadFailed s)
            (updateChildVisibility queueItem (queue s) pointCloud n
               cameraPosition camera halfHeight)
            (pointClouds s) (cache s))
  | _, _ => TypeError
  end.

(** The body of the loop of [updateVisibility] (lines 152-218), for the
    item [queueItem] that was popped. *)
Definition visit (p : Potree) (st : Structures) (camera : Camera)
    (renderer : WebGLRenderer) (queueItem : QueueItem) (s : Frame)
  : result (Exit * Frame) :=
  let n := node queueItem in
  if decide (frame_numVisiblePoints s + TreeNode.numPoints n > pointBudget p)
  then Ok (Break, s)
  else
    let i := pointCloudIndex queueItem in
    match pointClouds s !! i with
    | None => TypeError
    | Some pointCloud =>
        match culled st pointCloud i n with
        | Ok true => Ok (Culled, s)
        | Ok false =>
            let s1 := accept i n s in
            let pointCloud1 := addVisiblePoints (TreeNode.numPoints n) pointCloud in
            let rest (e : Exit) (n' : Node) (s2 : Frame) :=
              match treeStep i n' s2 with
              | Ok s3 =>
                  match expand st camera renderer queueItem n' s3 with
                  | Ok s4 => Ok (e, s4)
                  | TypeError => TypeError
                  | OutOfFuel => OutOfFuel
                  end
              | TypeError => TypeError
              | OutOfFuel => OutOfFuel
              end in
            match geometryStep i pointCloud1 n (parent queueItem) s1 with
            | LoadFailed s2 => Ok (Failed, s2)
            | ToTreeNode n' s2 => rest Promoted n' s2
            | Unchanged n' s2 => rest Expanded n' s2
            end
        | TypeError => TypeError
        | OutOfFuel => OutOfFuel
        end
    end.

Definition setQueue (q : Q) (s : Frame) : Frame :=
  mkFrame (frame_numVisiblePoints s) (frame_visibleNodes s)
    (unloadedGeometry s) (loadedToGPUThisFrame s) (exceededMaxLoadsToGPU s)
    (nodeLoadFailed s) q (pointClouds s) (cache s).

(** The loop of [updateVisibility] (lines 151-219); [fuel] bounds the
    number of its iterations. *)
Fixpoint traversal (p : Potree) (st : Structures) (camera : Camera)
    (renderer : WebGLRenderer) (fuel : nat) (s : Frame) : result Frame :=
  match pop (queue s) with
  | None => Ok s
  | Some (queueItem, q) =>
      match fuel with
      | O => OutOfFuel
      | S fuel' =>
          match visit p st camera renderer queueItem (setQueue q s) with
          | Ok (Break, s') => Ok s'
          | Ok (_, s') => traversal p st camera renderer fuel' s'
          | TypeError => TypeError
          | OutOfFuel => OutOfFuel
          end
      end
  end.

(** The items the loop pops in its first [fuel] iterations, each with the
    way its iteration ends; the list stops where the loop does. *)
Fixpoint visited (p : Potree) (st : Structures) (camera : Camera)
    (renderer : WebGLRenderer) (fuel : nat) (s : Frame)
  : list (QueueItem * Exit) :=
  match fuel, pop (queue s) with
  | S fuel', Some (queueItem, q) =>
      match visit p st camera renderer queueItem (setQueue q s) with
      | Ok (Break, _) => [(queueItem, Break)]
      | Ok (e, s') =>
          (queueItem, e) :: visited p st camera renderer fuel' s'
      | _ => []
      end
  | _, _ => []
  end.

(* the frame at the head of the loop (lines 137-149) *)
Definition initialFrame (p : Potree) (st : Structures) : Frame :=
  mkFrame 0 [] [] 0%nat false false (priorityQueue st)
    (structures_pointClouds st) (lru p).

(** [updateVisibility(pointClouds, camera, renderer)]: the result, with the
    point clouds and the scheduler as the call leaves them. *)
Definition updateVisibility (fuel : nat) (p : Potree)
    (pointClouds0 : list (PointCloudOctree Node)) (camera : Camera)
    (renderer : WebGLRenderer)
  : result (IVisibilityUpdateResult * list (PointCloudOctree Node) * Potree) :=
  let st := updateVisibilityStructures pointClouds0 camera in
  match traversal p st camera renderer fuel (initialFrame p st) with
  | Ok s =>
      let numNodesToLoad :=
        Z.min (maxNumNodesLoading p) (Z.of_nat (length (unloadedGeometry s))) in
      let nodeLoadPromises := take (Z.to_nat numNodesToLoad) (unloadedGeometry s) in
      Ok (mkResult (frame_visibleNodes s) (frame_numVisiblePoints s)
            (exceededMaxLoadsToGPU s) (nodeLoadFailed s) nodeLoadPromises,
          pointClouds s,
          mk (_pointBudget p) (maxNumNodesLoading p) (cache s))
  | TypeError => TypeError
  | OutOfFuel => OutOfFuel
  end.

(** [updatePointClouds(pointClouds, camera, renderer)]; the calls on each
    cloud's material and bounds are the rendering backend's.  [fuel] bounds
    the traversal and [fuel'] the loop of [freeMemory]. *)
Definition updatePointClouds (fuel fuel' : nat) (p : Potree)
    (pointClouds0 : list (PointCloudOctree Node)) (camera : Camera)
    (renderer : WebGLRenderer)
  : result (IVisibilityUpdateResult * list (PointCloudOctree Node) * Potree) :=
  match updateVisibility fuel p pointClouds0 camera renderer with
  | Ok (r, pcs, p') =>
      match LRU.exec (LRU.freeMemory fuel') (lru p') with
      | Ok c => Ok (r, pcs, mk (_pointBudget p') (maxNumNodesLoading p') c)
      | TypeError => TypeError
      | OutOfFuel => OutOfFuel
      end
  | TypeError => TypeError
  | OutOfFuel => OutOfFuel
  end.

(** *** Reading a traversal *)

(** The number of iterations of a trace that called [toTreeNode]. *)
Fixpoint promotions (t : list (QueueItem * Exit)) : nat :=
  match t with
  | [] => 0
  | (_, Promoted) :: t' => S (promotions t')
  | _ :: t' => promotions t'
  end.

(** An item of a trace that was counted as visible had its box intersect
    [frustums[pointCloudIndex]]. *)
Definition testedAgainst (st : Structures) (x : QueueItem * Exit) : Prop :=
  x.2 ≠ Break → x.2 ≠ Culled →
  ∃ frustum,
    frustums st !! pointCloudIndex x.1 = Some frustum ∧
    frustumIntersectsBox frustum (TreeNode.boundingBox (node x.1)) = true.

(** The item to push for a child, if any, in the words of the
    specification: the projected radius from the bounding sphere and the
    projection of the camera, the test against [minNodePixelSize], and the
    weight. *)
Definition childItem (qi : QueueItem) (pointCloud : PointCloudOctree Node)
    (n : Node) (cameraPosition : Vector3) (camera : Camera)
    (halfHeight : float) (child : Node) : option QueueItem :=
  let distance := distanceTo (center (TreeNode.boundingSphere child)) cameraPosition in
  let r := radius (TreeNode.boundingSphere child) in
  let projected :=
    if String.eqb (type camera) PERSPECTIVE_CAMERA
    then (r * (halfHeight / (Math_tan (fov camera * Math_PI / 180 / 2) * distance)))%float
    else (r * (2 * halfHeight / (top camera - bottom camera)))%float in
  if PrimFloat.ltb projected (minNodePixelSize pointCloud) then None
  else
    Some (mkQueueItem (pointCloudIndex qi)
            (if PrimFloat.ltb distance r then MAX_VALUE
             else (projected + 1 / distance)%float)
            child (Some n)).

End potree.
Arguments QueueItem : clear implicits.
Arguments Potree : clear implicits.
Arguments IVisibilityUpdateResult : clear implicits.
Arguments Structures {_} Node Q.
Arguments Frame {_} Node Q.
Arguments GeometryOutcome {_} Node Q.
End Potree.

(** ** Concrete caches, octrees and frames

    A small interpretation of the collaborators, on which the properties
    below are evaluated: boxes and frustums are intervals of one axis, a
    matrix is a translation along it, and the queue is the list model. *)

Module Scenario.
Local Open Scope Z_scope.

Definition V3 : Type := float * float * float.

(* Vector3.distanceTo of three.js *)
Definition v3_distanceTo (a b : V3) : float :=
  let '(ax, ay, az) := a in
  let '(bx, by', bz) := b in
  let dx := (ax - bx)%float in
  let dy := (ay - by')%float in
  let dz := (az - bz)%float in
  PrimFloat.sqrt (dx * dx + dy * dy + dz * dz)%float.

Definition overlap (a b : Z * Z) : bool :=
  bool_decide (a.1 ≤ b.2 ∧ b.1 ≤ a.2).

(** A frustum reaches ten units to each side of its matrix. *)
Definition three : ThreeJS := {|
  Vector3 := V3;
  Box3 := Z * Z;
  Matrix4 := Z;
  Frustum := Z * Z;
  distanceTo := v3_distanceTo;
  setFromMatrixPosition := λ m, (PrimFloat.of_uint63 (Uint63.of_Z m), 0%float, 0%float);
  identity := 0;
  multiply := Z.add;
  invert := Z.opp;
  setFromProjectionMatrix := λ m, (m - 10, m + 10);
  frustumIntersectsBox := overlap;
  applyMatrix4 := λ b m, (b.1 + m, b.2 + m);
  intersectsBox := overlap;
  unitBox := (-1, 1);
  Math_tan := λ x, x
|}.
#[local] Existing Instance three.

(** An octree node as a value: its fields and its children. *)
#[local] Unset Elimination Schemes.
Inductive SNode : Type :=
  SN (id numPoints level : Z) (loaded failed tree : bool) (box : Z * Z)
     (sphere : Sphere) (children : list (option SNode)).
#[local] Set Elimination Schemes.

Definition s_children (n : SNode) : list (option SNode) :=
  let '(SN _ _ _ _ _ _ _ _ c) := n in c.

(* traverse(cb), the node itself included *)
Fixpoint s_traverse (n : SNode) : list SNode :=
  n :: (fix go (l : list (option SNode)) : list SNode :=
          match l with
          | [] => []
          | None :: l' => go l'
          | Some c :: l' => s_traverse c ++ go l'
          end) (s_children n).

Definition snode : TreeNode.IPointCloudTreeNode SNode := {|
  TreeNode.id := λ '(SN i _ _ _ _ _ _ _ _), i;
  TreeNode.numPoints := λ '(SN _ k _ _ _ _ _ _ _), k;
  TreeNode.level := λ '(SN _ _ l _ _ _ _ _ _), l;
  TreeNode.loaded := λ '(SN _ _ _ b _ _ _ _ _), b;
  TreeNode.failed := λ '(SN _ _ _ _ b _ _ _ _), b;
  TreeNode.isTreeNode := λ '(SN _ _ _ _ _ b _ _ _), b;
  TreeNode.isGeometryNode := λ '(SN _ _ _ _ _ b _ _ _), negb b;
  TreeNode.boundingBox := λ '(SN _ _ _ _ _ _ b _ _), b;
  TreeNode.boundingSphere := λ '(SN _ _ _ _ _ _ _ s _), s;
  TreeNode.children := s_children;
  TreeNode.traverse := s_traverse;
  TreeNode.geometryNode := λ '(SN i k l ld f _ b s c), SN i k l ld f false b s c
|}.
#[local] Existing Instance snode.

(** [toTreeNode] wraps the geometry node: same fields, marked as a tree
    node. *)
Definition collaborators : Collaborators SNode := {|
  DEFAULT_POINT_BUDGET := 1000000;
  MAX_LOADS_TO_GPU := 2;
  MAX_NUM_NODES_LOADING := 4;
  PERSPECTIVE_CAMERA := "PerspectiveCamera";
  toTreeNode := λ _ '(SN i k l ld f _ b s c) _, SN i k l ld f true b s c
|}.
#[local] Existing Instance collaborators.

Definition Queue : Type := ListHeap.t (Potree.QueueItem SNode).
#[local] Existing Instance ListHeap.list_heap.

(** The octree of the budget scenario: A (60 points) with the children
    C (10 points) and B (50 points), all loaded; B is the larger on screen. *)
Definition nodeB : SNode :=
  SN 2 50 1 true false false (0, 1) (mkSphere (1, 0, 0)%float 1%float) [].
Definition nodeC : SNode :=
  SN 3 10 1 true false false (0, 1) (mkSphere (1, 0, 0)%float 0.5%float) [].
Definition nodeA : SNode :=
  SN 1 60 0 true false false (0, 2) (mkSphere (0, 0, 0)%float 2%float)
    [Some nodeC; None; Some nodeB].

(** A node whose load failed, inside the frustum of a cloud at the origin
    ([failedNode]) and outside of it ([failedFarNode]). *)
Definition failedNode : SNode :=
  SN 4 30 0 false true false (0, 2) (mkSphere (0, 0, 0)%float 2%float) [Some nodeB].
Definition failedFarNode : SNode :=
  SN 5 30 0 false true false (50, 60) (mkSphere (55, 0, 0)%float 5%float) [Some nodeB].

(** A node that has both [loaded] and [failed] set. *)
Definition failedLoadedNode : SNode :=
  SN 7 30 0 true true false (0, 2) (mkSphere (0, 0, 0)%float 2%float) [].

(** A loaded node far from the origin. *)
Definition farNode : SNode :=
  SN 6 60 0 true false false (95, 96) (mkSphere (95, 0, 0)%float 1%float) [].

(** An initialized cloud with the root [r] and the world matrix [m]; a cloud
    that is not initialized. *)
Definition cloud (r : SNode) (m : Z) (isVisible : bool) : PointCloudOctree SNode :=
  mkPointCloud false true isVisible (Some r) None 1%float
    (mkMaterial 0 DISABLED []) m 0 [] [].
Definition uninitializedCloud : PointCloudOctree SNode :=
  mkPointCloud false false true None None 1%float (mkMaterial 0 DISABLED []) 0 0 [] [].

Definition camera : Camera :=
  mkCamera "OrthographicCamera" 60%float 1%float (-1)%float 0 0 8.
Definition renderer : WebGLRenderer := mkRenderer 100%float 1%float.
Definition potree (budget : Z) : Potree.Potree SNode :=
  Potree.mk budget 4 (LRU.new budget).

(** Nodes that are their ids, of 400 points each, loaded but for node 0. *)
Definition znode : TreeNode.IPointCloudTreeNode Z := {|
  TreeNode.id := λ n, n;
  TreeNode.numPoints := λ _, 400;
  TreeNode.level := λ _, 0;
  TreeNode.loaded := λ n, bool_decide (n ≠ 0);
  TreeNode.failed := λ _, false;
  TreeNode.isTreeNode := λ _, false;
  TreeNode.isGeometryNode := λ _, true;
  TreeNode.boundingBox := λ _, (0, 1);
  TreeNode.boundingSphere := λ _, mkSphere (0, 0, 0)%float 1%float;
  TreeNode.children := λ _, [];
  TreeNode.traverse := λ n, [n];
  TreeNode.geometryNode := λ n, n
|}.
#[local] Existing Instance znode.

Definition zcollaborators : Collaborators Z := {|
  DEFAULT_POINT_BUDGET := 1000000;
  MAX_LOADS_TO_GPU := 2;
  MAX_NUM_NODES_LOADING := 4;
  PERSPECTIVE_CAMERA := "PerspectiveCamera";
  toTreeNode := λ _ n _, n
|}.

(** The cache after touching the nodes 1, 2 and 3, with the budget [b]. *)
Definition cache123 (b : Z) : LRU.LRU Z :=
  LRU.mk (Some 1%positive) (Some 3%positive) 1200
    (<[1 := 1%positive]> (<[2 := 2%positive]> (<[3 := 3%positive]> ∅))) b
    (<[1%positive := LRU.mkItem 1 (Some 2%positive) None]>
       (<[2%positive := LRU.mkItem 2 (Some 3%positive) (Some 1%positive)]>
          (<[3%positive := LRU.mkItem 3 None (Some 2%positive)]> ∅))).
Definition items123 : list (LRU.ref * Z) :=
  [(1%positive, 1); (2%positive, 2); (3%positive, 3)].

(** The cache after touching the nodes 1 and 2, with the budget [b]. *)
Definition cache12 (b : Z) : LRU.LRU Z :=
  LRU.mk (Some 1%positive) (Some 2%positive) 800
    (<[1 := 1%positive]> (<[2 := 2%positive]> ∅)) b
    (<[1%positive := LRU.mkItem 1 (Some 2%positive) None]>
       (<[2%positive := LRU.mkItem 2 None (Some 1%positive)]> ∅)).

(** The frame of the budget scenario: one cloud with the root A. *)
Definition budgetClouds : list (PointCloudOctree SNode) :=
  [cloud nodeA 0 true].
Definition budgetStructures : Potree.Structures SNode Queue :=
  Potree.updateVisibilityStructures budgetClouds camera.
Definition budgetFrame : Potree.Frame SNode Queue :=
  Potree.initialFrame (potree 100) budgetStructures.

(** The frame in which the root of the only cloud is a node whose load
    failed, after the root was popped. *)
Definition failedStructures (root : SNode)
  : Potree.Structures SNode Queue :=
  Potree.updateVisibilityStructures [cloud root 0 true] camera.
Definition failedItem (root : SNode) : Potree.QueueItem SNode :=
  Potree.mkQueueItem 0 MAX_VALUE root None.
Definition failedFrame (root : SNode)
  : Potree.Frame SNode Queue :=
  Potree.setQueue (ListHeap.mkHeap (λ x, 1 / Potree.weight x)%float [])
    (Potree.initialFrame (potree 100) (failedStructures root)).

(** The clouds of the misaligned frustums: one that is not initialized,
    then a visible cloud at the origin whose root lies far from it, then a
    cloud that is not visible, 100 units away. *)
Definition misalignedClouds : list (PointCloudOctree SNode) :=
  [uninitializedCloud;
   cloud farNode 0 true;
   cloud nodeA 100 false].

(** The same nodes in an octree in which the node 1 has the child 3:
    [traverse] on the node 1 visits the nodes 1 and 3. *)
Definition ztree : TreeNode.IPointCloudTreeNode Z := {|
  TreeNode.id := λ n, n;
  TreeNode.numPoints := λ _, 400;
  TreeNode.level := λ _, 0;
  TreeNode.loaded := λ n, bool_decide (n ≠ 0);
  TreeNode.failed := λ _, false;
  TreeNode.isTreeNode := λ _, false;
  TreeNode.isGeometryNode := λ _, true;
  TreeNode.boundingBox := λ _, (0, 1);
  TreeNode.boundingSphere := λ _, mkSphere (0, 0, 0)%float 1%float;
  TreeNode.children := λ n, if bool_decide (n = 1) then [Some 3] else [];
  TreeNode.traverse := λ n, if bool_decide (n = 1) then [1; 3] else [n];
  TreeNode.geometryNode := λ n, n
|}.

End Scenario.

(** * Proofs *)

(** ** The node cache *)

Section lru_facts.
Context `{ThreeJS} {Node : Type} `{!TreeNode.IPointCloudTreeNode Node}.
Local Open Scope Z_scope.
Implicit Types (c : LRU.LRU Node) (h : gmap LRU.ref (LRU.LRUItem Node)).
Implicit Types (ls : list (LRU.ref * Node)) (r : LRU.ref) (n : Node).
Implicit Types (p e : option LRU.ref).

Lemma last_ref_snoc ls x d : LRU.last_ref (ls ++ [x]) d = Some x.1.
Proof. unfold LRU.last_ref. by rewrite last_snoc. Qed.

Lemma last_ref_cons ls x d : LRU.last_ref (x :: ls) d = LRU.last_ref ls (Some x.1).
Proof.
  unfold LRU.last_ref. destruct ls as [|y ls]; [done|].
  rewrite last_cons_cons. destruct (last (y :: ls)) eqn:E; [done|].
  by apply last_None in E.
Qed.

Lemma last_ref_default x ls d d' : LRU.last_ref (x :: ls) d = LRU.last_ref (x :: ls) d'.
Proof.
  unfold LRU.last_ref. destruct (list.last (x :: ls)) eqn:E; [done|].
  by apply last_None in E.
Qed.

Lemma last_ref_app ls1 ls2 d : LRU.last_ref (ls1 ++ ls2) d = LRU.last_ref ls2 (LRU.last_ref ls1 d).
Proof.
  revert d. induction ls1 as [|x ls1 IH]; intros d; [done|].
  rewrite <-app_comm_cons, !last_ref_cons. apply IH.
Qed.

Lemma hd_ref_app ls1 ls2 d : LRU.hd_ref (ls1 ++ ls2) d = LRU.hd_ref ls1 (LRU.hd_ref ls2 d).
Proof. by destruct ls1. Qed.

Lemma chain_app h p ls1 ls2 e :
  LRU.chain h p (ls1 ++ ls2) e ↔
  LRU.chain h p ls1 (LRU.hd_ref ls2 e) ∧ LRU.chain h (LRU.last_ref ls1 p) ls2 e.
Proof.
  revert p. induction ls1 as [|x ls1 IH]; intros p; simpl.
  - tauto.
  - rewrite IH, hd_ref_app, last_ref_cons. tauto.
Qed.

Lemma chain_frame h h' p ls e :
  (∀ r, r ∈ ls.*1 → h' !! r = h !! r) → LRU.chain h p ls e → LRU.chain h' p ls e.
Proof.
  revert p. induction ls as [|x ls IH]; intros p Hf; simpl; [done|].
  intros [Hx Hc]. split.
  - rewrite Hf; [done|]. simpl. left.
  - apply IH; [|done]. intros r Hr. apply Hf. simpl. by right.
Qed.

Lemma chain_lookup h p ls e r :
  LRU.chain h p ls e → r ∈ ls.*1 → is_Some (h !! r).
Proof.
  revert p. induction ls as [|x ls IH]; intros p; simpl.
  - intros _ Hr. by apply elem_of_nil in Hr.
  - intros [Hx Hc] [->|Hr]%elem_of_cons; eauto.
Qed.

Lemma chain_node h p ls e r n it :
  LRU.chain h p ls e → (r, n) ∈ ls → h !! r = Some it → LRU.node it = n.
Proof.
  revert p. induction ls as [|x ls IH]; intros p; simpl.
  - intros _ Hr. by apply elem_of_nil in Hr.
  - intros [Hx Hc] [<-|Hr]%elem_of_cons ?; [|eauto].
    simpl in *. by simplify_eq.
Qed.

(* rewriting the [next] of the last item *)
Lemma chain_set_next h p ls x e e' :
  x.1 ∉ ls.*1 →
  LRU.chain h p (ls ++ [x]) e →
  LRU.chain (alter (λ it, LRU.mkItem (LRU.node it) e' (LRU.previous it)) x.1 h)
    p (ls ++ [x]) e'.
Proof.
  intros Hx. rewrite !chain_app. simpl. intros (Hc & Hl & _). split_and!; [| |done].
  - eapply chain_frame; [|done]. intros r Hr. apply lookup_alter_ne. set_solver.
  - by rewrite lookup_alter_eq, Hl.
Qed.

(* rewriting the [previous] of the first item *)
Lemma chain_set_previous h p p' ls x e :
  x.1 ∉ ls.*1 →
  LRU.chain h p (x :: ls) e →
  LRU.chain (alter (λ it, LRU.mkItem (LRU.node it) (LRU.next it) p') x.1 h)
    p' (x :: ls) e.
Proof.
  intros Hx. simpl. intros [Hl Hc]. split.
  - by rewrite lookup_alter_eq, Hl.
  - eapply chain_frame; [|done]. intros r Hr. apply lookup_alter_ne. set_solver.
Qed.

Lemma total_app ns1 ns2 : LRU.total (ns1 ++ ns2) = LRU.total ns1 + LRU.total ns2.
Proof. induction ns1 as [|n ns1 IH]; simpl; lia. Qed.

Lemma total_cons n ns : LRU.total (n :: ns) = TreeNode.numPoints n + LRU.total ns.
Proof. done. Qed.

Lemma index_of_fst ls : (LRU.index_of ls).*1 = TreeNode.id <$> ls.*2.
Proof. unfold LRU.index_of. rewrite <-!list_fmap_compose. done. Qed.

Lemma items_lookup_Some c ls k r :
  LRU.repr c ls → LRU.items c !! k = Some r ↔ ∃ n, (r, n) ∈ ls ∧ TreeNode.id n = k.
Proof.
  intros Hc. rewrite (LRU.repr_items _ _ Hc).
  rewrite <-elem_of_list_to_map by (rewrite index_of_fst; apply Hc).
  unfold LRU.index_of. rewrite list_elem_of_fmap. split.
  - intros ([r' n] & ? & ?); simplify_eq/=. eauto.
  - intros (n & ? & <-). by exists (r, n).
Qed.

Lemma items_lookup_None c ls k :
  LRU.repr c ls → LRU.items c !! k = None ↔ k ∉ TreeNode.id <$> ls.*2.
Proof.
  intros Hc. rewrite (LRU.repr_items _ _ Hc), <-index_of_fst.
  symmetry. apply not_elem_of_list_to_map.
Qed.

Lemma repr_size c ls : LRU.repr c ls → LRU.size c = length ls.
Proof.
  intros Hc. unfold LRU.size. rewrite (LRU.repr_items _ _ Hc).
  rewrite map_size_list_to_map by (rewrite index_of_fst; apply Hc).
  unfold LRU.index_of. by rewrite length_fmap.
Qed.

Lemma repr_new b : LRU.repr (LRU.new b) [].
Proof. by split; simpl; try constructor. Qed.

Lemma addNew_repr c ls n :
  LRU.repr c ls → TreeNode.id n ∉ TreeNode.id <$> ls.*2 →
  ∃ r c', LRU.addNew n c = Ok ((), c') ∧ LRU.repr c' (ls ++ [(r, n)]) ∧
          LRU.pointBudget c' = LRU.pointBudget c.
Proof.
  intros Hc Hn. destruct c as [f l np it pb h]. destruct Hc as [Hch Hf Hl Hr Hi Hit Hnp].
  simpl in *. set (r := fresh (dom h)).
  assert (h !! r = None) as Hfresh by apply not_elem_of_dom, is_fresh.
  assert (r ∉ ls.*1) as Hrls.
  { intros Hin. destruct (chain_lookup _ _ _ _ _ Hch Hin) as [? ?]. congruence. }
  exists r. unfold LRU.addNew, LRU.new_LRUItem, LRU.read, LRU.write_previous, LRU.write_next.
  unfold mbind, LRU.M_bind, mret, LRU.M_ret, LRU.get, LRU.set_store, LRU.set_last,
    LRU.set_first, LRU.set_items, LRU.set_numPoints, LRU.modify, LRU.throw.
  simpl. fold r. rewrite lookup_alter_eq, lookup_insert_eq. simpl.
  assert (LRU.total (ls ++ [(r, n)]).*2 = np + TreeNode.numPoints n) as Htot.
  { rewrite fmap_app, total_app. simpl. lia. }
  assert (NoDup (ls ++ [(r, n)]).*1) as Hrefs.
  { rewrite fmap_app. apply NoDup_app. split_and!; [done| |apply NoDup_singleton].
    intros r' Hr' ->%list_elem_of_singleton. done. }
  assert (NoDup (TreeNode.id <$> (ls ++ [(r, n)]).*2)) as Hids.
  { rewrite !fmap_app. apply NoDup_app. split_and!; [done| |apply NoDup_singleton].
    intros k Hk ->%list_elem_of_singleton. done. }
  assert (<[TreeNode.id n:=r]> it = list_to_map (LRU.index_of (ls ++ [(r, n)]))) as Hidx.
  { unfold LRU.index_of. rewrite fmap_app. simpl.
    rewrite list_to_map_snoc; [by rewrite Hit|].
    fold (LRU.index_of ls). by rewrite index_of_fst. }
  destruct ls as [|x ls' _] using rev_ind.
  - simpl in *. subst f l. simpl. eexists. split; [done|]. split; [|done].
    split; simpl; try done.
    by rewrite lookup_alter_eq, lookup_insert_eq.
  - rewrite last_ref_snoc in Hl. rewrite hd_ref_app in Hf. simpl in Hf.
    assert (∃ f', f = Some f') as [f' ->] by (subst f; destruct ls'; simpl; eauto).
    subst l. simpl. eexists. split; [done|]. split; [|done].
    rewrite fmap_app in Hrls. simpl in Hrls.
    apply not_elem_of_app in Hrls as [Hrls Hrx].
    apply not_elem_of_cons in Hrx as [Hrx _].
    rewrite fmap_app in Hr. apply NoDup_app in Hr as (_ & Hr & _).
    split; simpl; try done.
    + apply chain_app. split.
      * simpl. eapply chain_set_next.
        { intros Hin. by apply (Hr _ Hin); left. }
        eapply chain_frame; [|exact Hch]. intros r' Hr'.
        rewrite lookup_alter_ne, lookup_insert_ne; [done|..]; intros ->;
          rewrite fmap_app in Hr'; set_solver.
      * simpl. rewrite last_ref_snoc. split; [|done].
        rewrite lookup_alter_ne by done.
        by rewrite lookup_alter_eq, lookup_insert_eq.
    + rewrite hd_ref_app. rewrite Hf. by destruct ls'.
    + by rewrite last_ref_snoc.
Qed.


Lemma chain_alter_ne h p ls e r (f : LRU.LRUItem Node → LRU.LRUItem Node) :
  r ∉ ls.*1 → LRU.chain h p ls e → LRU.chain (alter f r h) p ls e.
Proof.
  intros Hr. apply chain_frame. intros r' Hr'. apply lookup_alter_ne.
  by intros ->.
Qed.

Lemma unlink_head h x y ls :
  NoDup (x :: y :: ls).*1 →
  LRU.chain h None (x :: y :: ls) None →
  LRU.chain (alter (λ it, LRU.mkItem (LRU.node it) (LRU.next it) None) y.1 h)
    None (y :: ls) None.
Proof.
  intros Hnd [_ Hc]. eapply chain_set_previous; [|exact Hc].
  rewrite !fmap_cons, !NoDup_cons in Hnd. tauto.
Qed.

Lemma unlink_last h w x ls :
  NoDup (ls ++ [w; x]).*1 →
  LRU.chain h None (ls ++ [w; x]) None →
  LRU.chain (alter (λ it, LRU.mkItem (LRU.node it) None (LRU.previous it)) w.1 h)
    None (ls ++ [w]) None.
Proof.
  intros Hnd Hc.
  change (ls ++ [w; x]) with (ls ++ [w] ++ [x]) in *. rewrite app_assoc in *.
  apply chain_app in Hc as [Hc _]. eapply chain_set_next; [|done].
  rewrite !fmap_app, !NoDup_app in Hnd. destruct Hnd as ((_ & Hnd & _) & _ & _).
  intros Hin. apply (Hnd _ Hin). simpl. left.
Qed.

Lemma unlink_middle h w x y ls1 ls2 :
  NoDup (ls1 ++ w :: x :: y :: ls2).*1 →
  LRU.chain h None (ls1 ++ w :: x :: y :: ls2) None →
  LRU.chain
    (alter (λ it, LRU.mkItem (LRU.node it) (LRU.next it) (Some w.1)) y.1
       (alter (λ it, LRU.mkItem (LRU.node it) (Some y.1) (LRU.previous it)) w.1 h))
    None (ls1 ++ w :: y :: ls2) None.
Proof.
  intros Hnd Hc.
  change (ls1 ++ w :: x :: y :: ls2) with (ls1 ++ [w] ++ x :: y :: ls2) in *.
  change (ls1 ++ w :: y :: ls2) with (ls1 ++ [w] ++ y :: ls2).
  rewrite app_assoc in *.
  apply chain_app in Hc as [Hc1 Hc2]. rewrite last_ref_snoc in Hc2.
  destruct Hc2 as [_ Hc2].
  rewrite fmap_app, NoDup_app in Hnd. destruct Hnd as (Hnd1 & Hnd12 & Hnd2).
  rewrite fmap_app, NoDup_app in Hnd1. destruct Hnd1 as (_ & Hnd1 & _).
  rewrite !fmap_cons, !NoDup_cons in Hnd2. destruct Hnd2 as (Hx & Hy & _).
  assert (w.1 ∈ (ls1 ++ [w]).*1) as Hw.
  { rewrite fmap_app. apply elem_of_app. right. simpl. left. }
  apply chain_app. rewrite last_ref_snoc. split.
  - apply chain_alter_ne.
    { intros Hin. apply (Hnd12 _ Hin). simpl. right. left. }
    eapply chain_set_next; [|done].
    intros Hin. apply (Hnd1 _ Hin). simpl. left.
  - eapply chain_set_previous; [done|].
    apply chain_alter_ne; [|exact Hc2].
    intros Hin. apply (Hnd12 _ Hw). simpl. by right.
Qed.

(** moving an item that is in no list behind the last item of a list *)
Lemma moveToEnd_chain f l np it pb h ls x i :
  ls ≠ [] → NoDup ls.*1 → x.1 ∉ ls.*1 → h !! x.1 = Some i → LRU.node i = x.2 →
  LRU.chain h None ls None → l = LRU.last_ref ls None →
  ∃ h', LRU.moveToEnd x.1 (LRU.mk f l np it pb h) =
          Ok ((), LRU.mk f (Some x.1) np it pb h') ∧
        LRU.chain h' None (ls ++ [x]) None.
Proof.
  intros Hne Hnd Hx Hi Hn Hc ->.
  destruct ls as [|y ls' _] using rev_ind; [done|].
  rewrite last_ref_snoc.
  unfold LRU.moveToEnd, LRU.read, LRU.write_previous, LRU.write_next.
  unfold mbind, LRU.M_bind, mret, LRU.M_ret, LRU.get, LRU.set_store, LRU.set_last,
    LRU.modify, LRU.throw.
  simpl. rewrite !lookup_alter_eq, Hi. simpl. eexists. split; [done|].
  rewrite fmap_app in Hx. apply not_elem_of_app in Hx as [Hx1 Hx2].
  apply not_elem_of_cons in Hx2 as [Hx2 _].
  rewrite fmap_app, NoDup_app in Hnd. destruct Hnd as (_ & Hnd & _).
  apply chain_app. rewrite last_ref_snoc. split.
  - simpl. eapply chain_set_next.
    { intros Hin. apply (Hnd _ Hin). simpl. left. }
    do 2 (apply chain_alter_ne; [rewrite fmap_app; set_solver|]). done.
  - simpl. split; [|done].
    rewrite lookup_alter_ne by done.
    rewrite !lookup_alter_eq, Hi. simpl. by rewrite Hn.
Qed.

Lemma NoDup_app_cons_swap {A} (l1 l2 : list A) x :
  NoDup (l1 ++ x :: l2) → NoDup (l1 ++ l2 ++ [x]).
Proof.
  intros Hnd. eapply NoDup_Permutation_proper; [|exact Hnd].
  rewrite (Permutation_app_comm l2 [x]). done.
Qed.

Lemma NoDup_snoc_inv {A} (l : list A) x : NoDup (l ++ [x]) → (x ∉ l) ∧ NoDup l.
Proof.
  intros Hn. apply NoDup_app in Hn as (Hl & Hx & _). split; [|done].
  intros Hin. apply (Hx _ Hin). left.
Qed.

Lemma NoDup_app_cons_inv {A} (l1 l2 : list A) x :
  NoDup (l1 ++ x :: l2) → (x ∉ l1 ++ l2) ∧ NoDup (l1 ++ l2).
Proof.
  intros Hn. apply NoDup_app_cons_swap in Hn. rewrite app_assoc in Hn.
  by apply NoDup_snoc_inv.
Qed.

Lemma touchExisting_repr c ls1 x ls2 :
  LRU.repr c (ls1 ++ x :: ls2) →
  ∃ c', LRU.touchExisting x.1 c = Ok ((), c') ∧ LRU.repr c' (ls1 ++ ls2 ++ [x]) ∧
        LRU.numPoints c' = LRU.numPoints c ∧
        LRU.pointBudget c' = LRU.pointBudget c.
Proof.
  intros Hc. destruct c as [f l np it pb h].
  destruct Hc as [Hch Hf Hl Hr Hi Hit Hnp]. simpl in Hch, Hf, Hl, Hit, Hnp.
  assert (NoDup (ls1 ++ ls2 ++ [x]).*1) as Hr'.
  { rewrite !fmap_app. rewrite fmap_app in Hr. by apply NoDup_app_cons_swap. }
  assert (NoDup (TreeNode.id <$> (ls1 ++ ls2 ++ [x]).*2)) as Hi'.
  { rewrite !fmap_app. rewrite !fmap_app in Hi. by apply NoDup_app_cons_swap. }
  assert (it = list_to_map (LRU.index_of (ls1 ++ ls2 ++ [x]))) as Hit'.
  { rewrite Hit. apply list_to_map_proper.
    - rewrite index_of_fst. done.
    - unfold LRU.index_of. rewrite !fmap_app. simpl.
      rewrite (Permutation_app_comm _ [_]). done. }
  assert (np = LRU.total (ls1 ++ ls2 ++ [x]).*2) as Hnp'.
  { rewrite Hnp.
    repeat (rewrite fmap_app || rewrite total_app || rewrite fmap_cons
            || rewrite total_cons || rewrite fmap_nil).
    unfold LRU.total at 5. simpl. lia. }
  pose proof Hr' as Hnd. rewrite app_assoc, fmap_app in Hnd.
  apply NoDup_snoc_inv in Hnd as [Hxn Hnd].
  pose proof Hch as Hch0.
  apply chain_app in Hch as [Hch1 [Hx Hch2]].
  unfold LRU.touchExisting, LRU.read, LRU.write_next, LRU.write_previous,
    LRU.set_first, LRU.deref.
  unfold mbind, LRU.M_bind, mret, LRU.M_ret, LRU.get, LRU.set_store,
    LRU.modify, LRU.throw.
  simpl. rewrite Hx. simpl.
  destruct ls2 as [|y ls2].
  { (* the item is the last one *)
    exists (LRU.mk f l np it pb h). simpl.
    split_and!; [by destruct (LRU.last_ref ls1 None)|by split|done|done]. }
  destruct ls1 as [|w ls1 _] using rev_ind.
  - (* the item is the first one *)
    simpl.
    edestruct (moveToEnd_chain (Some y.1) l np it pb
                 (alter (λ i, LRU.mkItem (LRU.node i) (LRU.next i) None) y.1 h)
                 (y :: ls2) x) as (h' & -> & Hh');
      [done|exact Hnd|exact Hxn| | | | |].
    + rewrite lookup_alter_ne; [exact Hx|].
      intros Heq. apply Hxn. rewrite <-Heq. left.
    + done.
    + eapply unlink_head; [|exact Hch0]. done.
    + rewrite Hl. simpl. rewrite last_ref_cons. apply last_ref_default.
    + eexists. split; [done|]. split_and!; [|done|done].
      split; simpl; try done.
      by rewrite app_comm_cons, last_ref_snoc.
  - (* the item has a predecessor and a successor *)
    rewrite last_ref_snoc. simpl.
    rewrite <-!app_assoc in Hch0, Hf, Hl, Hr, Hxn, Hnd, Hr', Hi', Hit', Hnp' |- *.
    change ([w] ++ ?l) with (w :: l) in *.
    edestruct (moveToEnd_chain f l np it pb
                 (alter (λ i, LRU.mkItem (LRU.node i) (LRU.next i) (Some w.1)) y.1
                    (alter (λ i, LRU.mkItem (LRU.node i) (Some y.1) (LRU.previous i))
                       w.1 h))
                 (ls1 ++ w :: y :: ls2) x) as (h' & -> & Hh');
      [by destruct ls1|exact Hnd|exact Hxn| | | | |].
    + rewrite !lookup_alter_ne; [exact Hx|..]; intros Heq; apply Hxn;
        rewrite <-Heq, fmap_app, fmap_cons; apply elem_of_app; right;
        [left|right; left].
    + done.
    + eapply unlink_middle; [|exact Hch0]. exact Hr.
    + by rewrite Hl, !last_ref_app, !last_ref_cons.
    + eexists. split; [done|]. split_and!; [|done|done].
      rewrite <-!app_assoc in Hh'. simpl in Hh'.
      split; simpl; try done.
      * rewrite Hf, !hd_ref_app. done.
      * rewrite !app_comm_cons, !app_assoc. by rewrite last_ref_snoc.
Qed.


Lemma touch_unloaded c n : TreeNode.loaded n = false → LRU.touch n c = Ok ((), c).
Proof. unfold LRU.touch. by intros ->. Qed.

Lemma touch_absent c ls n :
  LRU.repr c ls → TreeNode.loaded n = true → TreeNode.id n ∉ TreeNode.id <$> ls.*2 →
  ∃ r c', LRU.touch n c = Ok ((), c') ∧ LRU.repr c' (ls ++ [(r, n)]) ∧
          LRU.numPoints c' = LRU.numPoints c + TreeNode.numPoints n ∧
          LRU.pointBudget c' = LRU.pointBudget c.
Proof.
  intros Hc Hl Hn. unfold LRU.touch. rewrite Hl. simpl.
  unfold mbind, LRU.M_bind, LRU.get. simpl.
  rewrite (proj2 (items_lookup_None _ _ _ Hc) Hn).
  destruct (addNew_repr c ls n Hc Hn) as (r & c' & -> & Hc' & Hb).
  exists r, c'. split_and!; [done..| |done].
  rewrite (LRU.repr_numPoints _ _ Hc'), (LRU.repr_numPoints _ _ Hc).
  rewrite fmap_app, total_app. unfold LRU.total at 2. simpl. lia.
Qed.

Lemma touch_present c ls1 x ls2 n :
  LRU.repr c (ls1 ++ x :: ls2) → TreeNode.loaded n = true →
  TreeNode.id n = TreeNode.id x.2 →
  ∃ c', LRU.touch n c = Ok ((), c') ∧ LRU.repr c' (ls1 ++ ls2 ++ [x]) ∧
        LRU.numPoints c' = LRU.numPoints c ∧
        LRU.pointBudget c' = LRU.pointBudget c.
Proof.
  intros Hc Hl Hn. unfold LRU.touch. rewrite Hl. simpl.
  unfold mbind, LRU.M_bind, LRU.get. simpl.
  assert (LRU.items c !! TreeNode.id n = Some x.1) as ->.
  { apply (items_lookup_Some _ _ _ _ Hc). exists x.2. split; [|done].
    apply elem_of_app. right. destruct x. left. }
  by apply touchExisting_repr.
Qed.

Lemma delete_list_to_map_middle {V} (l1 l2 : list (Z * V)) k v :
  NoDup (l1 ++ (k, v) :: l2).*1 →
  delete k (list_to_map (l1 ++ (k, v) :: l2) : gmap Z V) = list_to_map (l1 ++ l2).
Proof.
  intros Hnd.
  assert (l1 ++ (k, v) :: l2 ≡ₚ (k, v) :: (l1 ++ l2)) as Hp.
  { by rewrite Permutation_middle. }
  rewrite (list_to_map_proper _ _ Hnd Hp). simpl.
  rewrite delete_insert_eq. apply delete_id.
  apply not_elem_of_list_to_map.
  rewrite Hp in Hnd. simpl in Hnd. by apply NoDup_cons in Hnd as [? _].
Qed.

Lemma index_of_delete ls1 x ls2 :
  NoDup (TreeNode.id <$> (ls1 ++ x :: ls2).*2) →
  delete (TreeNode.id x.2) (list_to_map (LRU.index_of (ls1 ++ x :: ls2)) : gmap Z LRU.ref)
  = list_to_map (LRU.index_of (ls1 ++ ls2)).
Proof.
  intros Hnd. rewrite <-index_of_fst in Hnd. unfold LRU.index_of in *.
  rewrite fmap_app, fmap_cons in Hnd. rewrite !fmap_app, fmap_cons.
  exact (delete_list_to_map_middle _ _ _ _ Hnd).
Qed.

Lemma remove_absent c n :
  LRU.items c !! TreeNode.id n = None → LRU.remove n c = Ok ((), c).
Proof.
  intros Hn. unfold LRU.remove, mbind, LRU.M_bind, LRU.get. simpl. by rewrite Hn.
Qed.

Lemma remove_present c ls1 x ls2 n :
  LRU.repr c (ls1 ++ x :: ls2) →
  TreeNode.id n = TreeNode.id x.2 → TreeNode.numPoints n = TreeNode.numPoints x.2 →
  ∃ c', LRU.remove n c = Ok ((), c') ∧ LRU.repr c' (ls1 ++ ls2) ∧
        LRU.pointBudget c' = LRU.pointBudget c.
Proof.
  intros Hc Hid Hpts.
  assert (LRU.items c !! TreeNode.id n = Some x.1) as Hlk.
  { apply (items_lookup_Some _ _ _ _ Hc). exists x.2. split; [|done].
    apply elem_of_app. right. destruct x. left. }
  pose proof (repr_size _ _ Hc) as Hsz. unfold LRU.size in Hsz.
  destruct c as [f l np it pb h].
  destruct Hc as [Hch Hf Hl Hr Hi Hit Hnp]. simpl in Hch, Hf, Hl, Hit, Hnp, Hlk, Hsz.
  pose proof Hr as Hr'. rewrite fmap_app, fmap_cons in Hr'.
  apply NoDup_app_cons_inv in Hr' as [Hxn Hr']. rewrite <-fmap_app in Hxn, Hr'.
  pose proof Hi as Hi'. rewrite !fmap_app, !fmap_cons in Hi'.
  apply NoDup_app_cons_inv in Hi' as [_ Hi']. rewrite <-!fmap_app in Hi'.
  assert (delete (TreeNode.id n) it = list_to_map (LRU.index_of (ls1 ++ ls2))) as Hit'.
  { rewrite Hit, Hid. by apply index_of_delete. }
  assert (np - TreeNode.numPoints n = LRU.total (ls1 ++ ls2).*2) as Hnp'.
  { rewrite Hnp, Hpts.
    repeat (rewrite fmap_app || rewrite total_app || rewrite fmap_cons
            || rewrite total_cons). lia. }
  pose proof Hch as Hch0.
  apply chain_app in Hch as [Hch1 [Hx Hch2]].
  unfold LRU.remove, LRU.read, LRU.write_next, LRU.write_previous,
    LRU.set_first, LRU.set_last, LRU.set_items, LRU.set_numPoints, LRU.deref.
  unfold mbind, LRU.M_bind, mret, LRU.M_ret, LRU.get, LRU.set_store,
    LRU.modify, LRU.throw.
  simpl. rewrite Hlk. rewrite Hsz. rewrite length_app. simpl.
  destruct ls2 as [|y ls2]; [destruct ls1 as [|w ls1 _] using rev_ind|
    destruct ls1 as [|w ls1 _] using rev_ind].
  - (* the only item *)
    simpl. eexists. split; [done|]. split; [|done]. by split.
  - (* the last of several items *)
    assert (w.1 ≠ x.1) as Hwx.
    { intros Heq. apply Hxn. rewrite <-Heq, app_nil_r, fmap_app.
      apply elem_of_app. right. left. }
    rewrite length_app. simpl.
    destruct (decide ((length ls1 + 1 + 1)%nat = 1%nat)) as [?|_]; [lia|].
    simpl. rewrite Hx. simpl. rewrite last_ref_snoc. simpl.
    rewrite Hx. simpl. rewrite last_ref_snoc. simpl.
    rewrite lookup_alter_ne by done. rewrite Hx. simpl.
    rewrite last_ref_snoc. simpl.
    eexists. split; [done|]. split; [|done].
    rewrite app_nil_r in Hr', Hi', Hit', Hnp' |- *.
    split; simpl; try done.
    + rewrite <-app_assoc in Hr, Hch0. eapply unlink_last; [|exact Hch0]. done.
    + rewrite Hf, <-app_assoc, !hd_ref_app. done.
    + by rewrite last_ref_snoc.
  - (* the first of several items *)
    assert (y.1 ≠ x.1) as Hyx.
    { intros Heq. apply Hxn. rewrite <-Heq. left. }
    destruct (decide ((0 + S (S (length ls2)))%nat = 1%nat)) as [?|_]; [lia|].
    simpl. rewrite Hx. simpl.
    rewrite lookup_alter_ne by done. rewrite Hx. simpl.
    rewrite lookup_alter_ne by done. rewrite Hx. simpl.
    eexists. split; [done|]. split; [|done].
    split; simpl; try done.
    eapply unlink_head; [|exact Hch0]. done.
  - (* an item between two others *)
    assert (w.1 ≠ x.1 ∧ y.1 ≠ x.1) as [Hwx Hyx].
    { split; intros Heq; apply Hxn; rewrite <-Heq, !fmap_app;
        [apply elem_of_app; left; apply elem_of_app; right; left
        |apply elem_of_app; right; left]. }
    rewrite length_app. simpl.
    destruct (decide ((length ls1 + 1 + S (S (length ls2)))%nat = 1%nat))
      as [?|_]; [lia|].
    simpl. rewrite Hx. simpl. rewrite last_ref_snoc. simpl.
    rewrite Hx. simpl. rewrite Hx. simpl. rewrite last_ref_snoc. simpl.
    eexists. split; [done|]. split; [|done].
    rewrite <-!app_assoc in Hch0, Hf, Hl, Hr, Hr', Hi', Hit', Hnp' |- *.
    change ([w] ++ ?l) with (w :: l) in *.
    split; simpl; try done.
    + by apply (unlink_middle _ _ x).
    + rewrite Hf, !hd_ref_app. done.
    + by rewrite Hl, !last_ref_app, !last_ref_cons.
Qed.



Lemma walk_next h p ls :
  LRU.chain h p ls None → LRU.walk LRU.next h (length ls) (LRU.hd_ref ls None) = Some ls.*2.
Proof.
  revert p. induction ls as [|x ls IH]; intros p; [done|].
  simpl. intros [-> Hc]. simpl. by rewrite (IH _ Hc).
Qed.

Lemma walk_previous h ls e :
  LRU.chain h None ls e →
  LRU.walk LRU.previous h (length ls) (LRU.last_ref ls None) = Some (reverse ls.*2).
Proof.
  revert e. induction ls as [|x ls IH] using rev_ind; intros e; [done|].
  rewrite chain_app. simpl. intros (Hc & Hx & _).
  rewrite last_ref_snoc, length_app, Nat.add_comm. simpl. rewrite Hx. simpl.
  rewrite (IH _ Hc), fmap_app, reverse_app. done.
Qed.

Lemma repr_forward c ls : LRU.repr c ls → LRU.forward c = Some ls.*2.
Proof.
  intros Hc. unfold LRU.forward.
  rewrite (repr_size _ _ Hc), (LRU.repr_first _ _ Hc).
  eapply walk_next, Hc.
Qed.

Lemma repr_backward c ls : LRU.repr c ls → LRU.backward c = Some (reverse ls.*2).
Proof.
  intros Hc. unfold LRU.backward.
  rewrite (repr_size _ _ Hc), (LRU.repr_last _ _ Hc).
  eapply walk_previous, Hc.
Qed.

Section recency_facts.
Context `{!EqDecision Node}.

Lemma remove_dups_earlier (l1 l2 : list Node) x :
  x ∈ l2 → remove_dups (l1 ++ x :: l2) = remove_dups (l1 ++ l2).
Proof.
  intros Hx. induction l1 as [|a l1 IH]; simpl.
  - by destruct (decide_rel _ x l2).
  - rewrite IH. destruct (decide_rel _ a (l1 ++ x :: l2)) as [Ha|Ha];
      destruct (decide_rel _ a (l1 ++ l2)) as [Ha'|Ha']; try done;
      exfalso; set_solver.
Qed.

Lemma remove_dups_NoDup (l : list Node) : NoDup l → remove_dups l = l.
Proof.
  induction 1 as [|x l Hx Hl IH]; [done|]. simpl.
  destruct (decide_rel _ x l); [done|by rewrite IH].
Qed.

Lemma touchAll_repr c ls ns :
  LRU.repr c ls →
  (∀ a b, a ∈ ls.*2 ++ filter (λ n, TreeNode.loaded n = true) ns →
          b ∈ ls.*2 ++ filter (λ n, TreeNode.loaded n = true) ns →
          TreeNode.id a = TreeNode.id b → a = b) →
  ∃ c' ls', LRU.touchAll ns c = Ok ((), c') ∧ LRU.repr c' ls' ∧
            ls'.*2 = remove_dups (ls.*2 ++ filter (λ n, TreeNode.loaded n = true) ns) ∧
            LRU.pointBudget c' = LRU.pointBudget c.
Proof.
  revert c ls. induction ns as [|n ns IH]; intros c ls Hc Hinj.
  - exists c, ls. split_and!; [done..| |done].
    rewrite filter_nil, app_nil_r. symmetry. apply remove_dups_NoDup.
    eapply NoDup_fmap_1, Hc.
  - simpl. unfold mbind, LRU.M_bind.
    destruct (TreeNode.loaded n) eqn:Hl.
    + rewrite filter_cons_True in Hinj |- * by done.
      destruct (decide (n ∈ ls.*2)) as [Hin|Hin].
      * apply list_elem_of_fmap in Hin as (x & -> & Hin).
        apply list_elem_of_split in Hin as (ls1 & ls2 & ->).
        destruct (touch_present c ls1 x ls2 x.2 Hc Hl eq_refl)
          as (c1 & -> & Hc1 & _ & Hb1).
        destruct (IH c1 _ Hc1) as (c2 & ls' & -> & Hc2 & Hls' & Hb2).
        { intros a b Ha Hb. apply Hinj.
          - revert Ha. rewrite !fmap_app, !fmap_cons. set_solver.
          - revert Hb. rewrite !fmap_app, !fmap_cons. set_solver. }
        exists c2, ls'. split_and!; [done..| |congruence].
        rewrite Hls', !fmap_app, !fmap_cons. simpl.
        rewrite <-!app_assoc. simpl.
        rewrite (remove_dups_earlier (ls1.*2) (ls2.*2 ++ x.2 :: _)); [done|].
        set_solver.
      * assert (TreeNode.id n ∉ TreeNode.id <$> ls.*2) as Hid.
        { intros (m & Hm & Hin')%list_elem_of_fmap. apply Hin.
          rewrite (Hinj n m); [done| | |done]; set_solver. }
        destruct (touch_absent c ls n Hc Hl Hid) as (r & c1 & -> & Hc1 & _ & Hb1).
        destruct (IH c1 _ Hc1) as (c2 & ls' & -> & Hc2 & Hls' & Hb2).
        { intros a b Ha Hb. apply Hinj.
          - revert Ha. rewrite !fmap_app. set_solver.
          - revert Hb. rewrite !fmap_app. set_solver. }
        exists c2, ls'. split_and!; [done..| |congruence].
        rewrite Hls', fmap_app, <-app_assoc. done.
    + rewrite (touch_unloaded c n Hl).
      rewrite filter_cons_False in Hinj |- * by (rewrite Hl; done).
      by apply IH.
Qed.

Lemma filter_ne_absent (l : list Node) x : x ∉ l → filter (λ m, m ≠ x) l = l.
Proof.
  induction l as [|y l IH]; [done|].
  intros [Hy Hl]%not_elem_of_cons.
  rewrite filter_cons_True by done. by rewrite IH.
Qed.

Lemma filter_ne_middle (l1 l2 : list Node) x :
  NoDup (l1 ++ x :: l2) → filter (λ m, m ≠ x) (l1 ++ x :: l2) = l1 ++ l2.
Proof.
  intros Hnd. apply NoDup_app_cons_inv in Hnd as [Hx _].
  apply not_elem_of_app in Hx as [Hx1 Hx2].
  rewrite filter_app, filter_cons_False by (intros Hne; by apply Hne).
  by rewrite !filter_ne_absent.
Qed.

(** C5: touching nodes, starting from an empty cache, leaves the
    list of the cache, read from [first] along [next], as the loaded nodes
    in the order of their latest touch, the most recently touched last (and
    read from [last] along [previous], as the reverse); [size] is the number
    of distinct loaded nodes touched and [numPoints] the total of their
    points; touching an unloaded node changes nothing; touching a node
    that is in the cache moves it to the end of the list and leaves
    [numPoints] and [size] as they are. *)
Theorem touch_recency_order (b : Z) (ns : list Node) :
  (∀ a a', a ∈ ns → a' ∈ ns → TreeNode.loaded a = true →
           TreeNode.loaded a' = true → TreeNode.id a = TreeNode.id a' → a = a') →
  ∃ c, LRU.exec (LRU.touchAll ns) (LRU.new b) = Ok c ∧
       LRU.forward c = Some (LRU.recency ns) ∧
       LRU.backward c = Some (reverse (LRU.recency ns)) ∧
       LRU.size c = length (LRU.recency ns) ∧
       LRU.numPoints c = LRU.total (LRU.recency ns) ∧
       (∀ c0 n, TreeNode.loaded n = false → LRU.touch n c0 = Ok ((), c0)) ∧
       (∀ n, TreeNode.loaded n = true → n ∈ ns →
             ∃ c', LRU.exec (LRU.touch n) c = Ok c' ∧
                   LRU.forward c' = Some (filter (λ m, m ≠ n) (LRU.recency ns) ++ [n]) ∧
                   LRU.numPoints c' = LRU.numPoints c ∧
                   LRU.size c' = LRU.size c).
Proof.
  intros Hinj.
  destruct (touchAll_repr (LRU.new b) [] ns (repr_new b)) as (c & ls & Hrun & Hc & Hls & _).
  { simpl. intros a a' [Ha Hla]%list_elem_of_filter [Ha' Hla']%list_elem_of_filter.
    by apply Hinj. }
  simpl in Hls. fold (LRU.recency ns) in Hls.
  exists c. unfold LRU.exec. rewrite Hrun.
  split_and!; [done|..].
  - by rewrite (repr_forward _ _ Hc), Hls.
  - by rewrite (repr_backward _ _ Hc), Hls.
  - by rewrite (repr_size _ _ Hc), <-Hls, !length_fmap.
  - by rewrite (LRU.repr_numPoints _ _ Hc), Hls.
  - intros c0 n. apply touch_unloaded.
  - intros n Hl Hn.
    assert (n ∈ ls.*2) as Hin.
    { rewrite Hls. apply elem_of_remove_dups, list_elem_of_filter. done. }
    apply list_elem_of_fmap in Hin as (x & -> & Hin).
    apply list_elem_of_split in Hin as (ls1 & ls2 & ->).
    destruct (touch_present c ls1 x ls2 x.2 Hc Hl eq_refl)
      as (c' & Hrun' & Hc' & Hn' & _).
    exists c'. rewrite Hrun'. split_and!; [done| |done|].
    + rewrite (repr_forward _ _ Hc'), <-Hls. f_equal.
      assert (NoDup (ls1.*2 ++ x.2 :: ls2.*2)) as Hnd.
      { rewrite <-fmap_cons, <-fmap_app. eapply NoDup_fmap_1, Hc. }
      rewrite !fmap_app, !fmap_cons, fmap_nil, filter_ne_middle by done.
      by rewrite <-app_assoc.
    + rewrite (repr_size _ _ Hc'), (repr_size _ _ Hc), !length_app. simpl. lia.
Qed.
End recency_facts.

Lemma remove_repr c ls n :
  LRU.numPoints_by_id → LRU.repr c ls →
  ∃ c' ls', LRU.remove n c = Ok ((), c') ∧ LRU.repr c' ls' ∧ ls' `sublist_of` ls ∧
            LRU.pointBudget c' = LRU.pointBudget c.
Proof.
  intros Hpts Hc.
  destruct (LRU.items c !! TreeNode.id n) as [r|] eqn:Hlk.
  - apply (items_lookup_Some _ _ _ _ Hc) in Hlk as (m & Hin & Hid).
    apply list_elem_of_split in Hin as (ls1 & ls2 & ->).
    destruct (remove_present c ls1 (r, m) ls2 n Hc) as (c' & Hrm & Hc' & Hb);
      [done|by apply Hpts|].
    exists c', (ls1 ++ ls2). split_and!; [done..| |done].
    apply sublist_app; [done|]. by apply sublist_cons.
  - exists c, ls. by rewrite remove_absent.
Qed.

Lemma removeAll_repr c ls ns :
  LRU.numPoints_by_id → LRU.repr c ls →
  ∃ c' ls', LRU.removeAll ns c = Ok ((), c') ∧ LRU.repr c' ls' ∧ ls' `sublist_of` ls ∧
            LRU.pointBudget c' = LRU.pointBudget c.
Proof.
  intros Hpts. revert c ls. induction ns as [|n ns IH]; intros c ls Hc.
  - by exists c, ls.
  - simpl. unfold mbind, LRU.M_bind.
    destruct (remove_repr c ls n Hpts Hc) as (c1 & ls1 & -> & Hc1 & Hs1 & Hb1).
    destruct (IH c1 ls1 Hc1) as (c2 & ls2 & -> & Hc2 & Hs2 & Hb2).
    exists c2, ls2. split_and!; [done..| |congruence]. by etrans.
Qed.

Lemma disposeSubtree_first c x ls :
  LRU.numPoints_by_id → LRU.repr c (x :: ls) →
  ∃ c' ls', LRU.disposeSubtree x.2 c = Ok ((), c') ∧ LRU.repr c' ls' ∧
            ls' `sublist_of` ls ∧ LRU.pointBudget c' = LRU.pointBudget c.
Proof.
  intros Hpts Hc. unfold LRU.disposeSubtree. simpl. unfold mbind, LRU.M_bind.
  destruct (remove_present c [] x ls x.2 Hc eq_refl eq_refl) as (c1 & -> & Hc1 & Hb1).
  destruct (removeAll_repr c1 ls
              (filter (λ d, TreeNode.loaded d = true) (TreeNode.traverse x.2))
              Hpts Hc1) as (c2 & ls2 & -> & Hc2 & Hs2 & Hb2).
  exists c2, ls2. split_and!; [done..|congruence].
Qed.

Lemma getLRUItem_first c x ls :
  LRU.repr c (x :: ls) → LRU.getLRUItem c = Ok (Some x.2, c).
Proof.
  intros Hc. unfold LRU.getLRUItem, LRU.read, mbind, LRU.M_bind, LRU.get. simpl.
  rewrite (LRU.repr_first _ _ Hc). simpl.
  destruct (LRU.repr_chain _ _ Hc) as [-> _]. done.
Qed.

Lemma repr_nil_numPoints c : LRU.repr c [] → LRU.numPoints c = 0.
Proof. intros Hc. by rewrite (LRU.repr_numPoints _ _ Hc). Qed.

Lemma freeMemoryLoop_total fuel c ls :
  LRU.numPoints_by_id → LRU.repr c ls → 0 ≤ LRU.pointBudget c → (length ls ≤ fuel)%nat →
  ∃ c' ls', LRU.freeMemoryLoop fuel c = Ok ((), c') ∧ LRU.repr c' ls' ∧
            ls' `sublist_of` ls ∧ LRU.pointBudget c' = LRU.pointBudget c ∧
            LRU.numPoints c' ≤ 2 * LRU.pointBudget c.
Proof.
  intros Hpts. revert c ls. induction fuel as [|fuel IH]; intros c ls Hc Hb Hlen.
  - destruct ls; [|simpl in Hlen; lia].
    exists c, []. simpl. unfold mbind, LRU.M_bind, LRU.get. simpl.
    rewrite (repr_nil_numPoints _ Hc).
    destruct (decide (0 > LRU.pointBudget c * 2)); [lia|].
    split_and!; try done. lia.
  - simpl. unfold mbind, LRU.M_bind, LRU.get. simpl.
    destruct (decide (LRU.numPoints c > LRU.pointBudget c * 2)) as [Hgt|Hle].
    + destruct ls as [|x ls].
      { rewrite (repr_nil_numPoints _ Hc) in Hgt. lia. }
      rewrite (getLRUItem_first _ _ _ Hc).
      destruct (disposeSubtree_first c x ls Hpts Hc) as (c1 & ls1 & -> & Hc1 & Hs1 & Hb1).
      destruct (IH c1 ls1 Hc1) as (c2 & ls2 & -> & Hc2 & Hs2 & Hb2 & Hn2).
      { by rewrite Hb1. }
      { apply sublist_length in Hs1. simpl in Hlen. lia. }
      exists c2, ls2. split_and!; [done..| |congruence|by rewrite <-Hb1].
      etrans; [exact Hs2|]. by apply sublist_cons.
    + exists c, ls. split_and!; try done. lia.
Qed.

Lemma freeMemoryLoop_post fuel c c' :
  LRU.freeMemoryLoop fuel c = Ok ((), c') →
  LRU.numPoints c' ≤ 2 * LRU.pointBudget c'.
Proof.
  revert c. induction fuel as [|fuel IH]; intros c; simpl;
    unfold mbind, LRU.M_bind, LRU.get; simpl;
    destruct (decide (LRU.numPoints c > LRU.pointBudget c * 2)) as [Hgt|Hle];
    try (intros [= <-]; lia); try done.
  destruct (LRU.getLRUItem c) as [[[n|] c1]| |]; try done.
  - destruct (LRU.disposeSubtree n c1) as [[[] c2]| |]; try done. apply IH.
  - simpl. apply IH.
Qed.

(** without items and above the budget the loop of freeMemory() never ends *)
Lemma freeMemoryLoop_diverges fuel c :
  LRU.first c = None → LRU.numPoints c > LRU.pointBudget c * 2 →
  LRU.freeMemoryLoop fuel c = OutOfFuel.
Proof.
  intros Hf Hgt. induction fuel as [|fuel IH]; simpl;
    unfold mbind, LRU.M_bind, LRU.get, LRU.getLRUItem; simpl;
    destruct (decide (LRU.numPoints c > LRU.pointBudget c * 2)); try done.
  unfold mbind, LRU.M_bind, LRU.get. simpl. rewrite Hf. simpl. exact IH.
Qed.

Lemma freeMemory_total c ls fuel :
  LRU.numPoints_by_id → LRU.repr c ls → 0 ≤ LRU.pointBudget c → (length ls ≤ fuel)%nat →
  ∃ c' ls', LRU.freeMemory fuel c = Ok ((), c') ∧ LRU.repr c' ls' ∧
            ls' `sublist_of` ls ∧ LRU.pointBudget c' = LRU.pointBudget c ∧
            ((length ls ≤ 1)%nat ∧ c' = c ∨
             (1 < length ls)%nat ∧ LRU.numPoints c' ≤ 2 * LRU.pointBudget c).
Proof.
  intros Hpts Hc Hb Hlen. unfold LRU.freeMemory, mbind, LRU.M_bind, LRU.get. simpl.
  rewrite (repr_size _ _ Hc).
  destruct (decide (length ls ≤ 1)%nat) as [Hle|Hgt].
  - exists c, ls. split_and!; try done. by left.
  - destruct (freeMemoryLoop_total fuel c ls Hpts Hc Hb Hlen)
      as (c' & ls' & -> & Hc' & Hs & Hb' & Hn).
    exists c', ls'. split_and!; try done. right. split; [lia|done].
Qed.

Lemma freeMemory_post fuel c c' :
  LRU.freeMemory fuel c = Ok ((), c') →
  (LRU.size c ≤ 1)%nat ∧ c' = c ∨
  (1 < LRU.size c)%nat ∧ LRU.numPoints c' ≤ 2 * LRU.pointBudget c'.
Proof.
  unfold LRU.freeMemory, mbind, LRU.M_bind, LRU.get. simpl.
  destruct (decide (LRU.size c ≤ 1)%nat) as [Hle|Hgt].
  - intros [= <-]. by left.
  - intros Hl%freeMemoryLoop_post. right. split; [lia|done].
Qed.


Lemma keeps_ret {A} (a : A) : LRU.keeps_budget (mret a : LRU.M Node A).
Proof. by intros c a' c' [= _ <-]. Qed.

Lemma keeps_bind {A B} (m : LRU.M Node A) (f : A → LRU.M Node B) :
  LRU.keeps_budget m → (∀ a, LRU.keeps_budget (f a)) → LRU.keeps_budget (m ≫= f).
Proof.
  intros Hm Hf c b c'. unfold mbind, LRU.M_bind.
  destruct (m c) as [[a c1]| |] eqn:E; try done.
  intros Hfa. rewrite (Hf _ _ _ _ Hfa). by eapply Hm.
Qed.

Lemma keeps_get {A} (f : LRU.LRU Node → A) : LRU.keeps_budget (LRU.get f).
Proof. by intros c a' c' [= _ <-]. Qed.

Lemma keeps_throw {A} : LRU.keeps_budget (@LRU.throw Node A).
Proof. by intros c a' c'. Qed.

Lemma keeps_timeout {A} : LRU.keeps_budget (@LRU.timeout Node A).
Proof. by intros c a' c'. Qed.

Lemma keeps_modify f :
  (∀ c, LRU.pointBudget (f c) = LRU.pointBudget c) → LRU.keeps_budget (LRU.modify f).
Proof. intros Hf c a' c' [= _ <-]. apply Hf. Qed.

Ltac keeps_step :=
  first
    [ apply keeps_ret | apply keeps_get | apply keeps_throw | apply keeps_timeout
    | apply keeps_modify; done
    | apply keeps_bind; [|intros ?]
    | match goal with
      | |- LRU.keeps_budget (match ?x with _ => _ end) => destruct x
      | |- LRU.keeps_budget (if ?x then _ else _) => destruct x
      end ].

Lemma keeps_touch n : LRU.keeps_budget (LRU.touch n).
Proof.
  unfold LRU.touch, LRU.touchExisting, LRU.addNew, LRU.moveToEnd, LRU.new_LRUItem,
    LRU.read, LRU.write_next, LRU.write_previous, LRU.deref, LRU.set_first,
    LRU.set_last, LRU.set_items, LRU.set_numPoints, LRU.set_store.
  repeat keeps_step.
Qed.





Lemma freeMemory_noop fuel c :
  LRU.numPoints c ≤ LRU.pointBudget c * 2 → LRU.freeMemory fuel c = Ok ((), c).
Proof.
  intros Hle. unfold LRU.freeMemory, mbind, LRU.M_bind, LRU.get. simpl.
  destruct (decide (LRU.size c ≤ 1)%nat); [done|].
  destruct fuel; simpl; unfold mbind, LRU.M_bind, LRU.get; simpl;
    destruct (decide (LRU.numPoints c > LRU.pointBudget c * 2)); try done; lia.
Qed.

(** C3: whenever freeMemory() returns, the total of resident
    points is at most twice the budget or the cache holds at most one item,
    whatever the state of the cache it was called on; and on a well-formed
    cache with a budget that is not negative it does return, within as many
    iterations as the cache has items. *)
Theorem freeMemory_enforces_budget (c : LRU.LRU Node) :
  LRU.numPoints_by_id → LRU.wellFormed c → 0 ≤ LRU.pointBudget c →
  (∀ fuel, (LRU.size c ≤ fuel)%nat →
     ∃ c', LRU.exec (LRU.freeMemory fuel) c = Ok c' ∧ LRU.wellFormed c' ∧
           (LRU.numPoints c' ≤ 2 * LRU.pointBudget c' ∨ (LRU.size c' ≤ 1)%nat)) ∧
  (∀ c0 fuel c0', LRU.exec (LRU.freeMemory fuel) c0 = Ok c0' →
     LRU.numPoints c0' ≤ 2 * LRU.pointBudget c0' ∨ (LRU.size c0' ≤ 1)%nat).
Proof.
  intros Hpts [ls Hc] Hb.
  assert (∀ c0 fuel c0', LRU.exec (LRU.freeMemory fuel) c0 = Ok c0' →
     LRU.numPoints c0' ≤ 2 * LRU.pointBudget c0' ∨ (LRU.size c0' ≤ 1)%nat) as Hpost.
  { intros c0 fuel c0'. unfold LRU.exec.
    destruct (LRU.freeMemory fuel c0) as [[[] c1]| |] eqn:Hrun; try done.
    intros [= <-]. apply freeMemory_post in Hrun as [[? ->]|[_ ?]]; auto. }
  split; [|exact Hpost].
  intros fuel Hfuel. rewrite (repr_size _ _ Hc) in Hfuel.
  destruct (freeMemory_total c ls fuel Hpts Hc Hb Hfuel)
    as (c' & ls' & Hrun & Hc' & _).
  exists c'. unfold LRU.exec at 1. rewrite Hrun.
  split_and!; [done|by exists ls'|].
  apply (Hpost c fuel). unfold LRU.exec. by rewrite Hrun.
Qed.

Lemma has_repr c ls (n : Node) :
  LRU.repr c ls → LRU.has n c = bool_decide (TreeNode.id n ∈ TreeNode.id <$> ls.*2).
Proof.
  intros Hc. unfold LRU.has.
  destruct (LRU.items c !! TreeNode.id n) as [r|] eqn:Hlk.
  - rewrite bool_decide_eq_true_2 by done. symmetry. apply bool_decide_eq_true_2.
    apply (items_lookup_Some _ _ _ _ Hc) in Hlk as (m & Hin & Hid).
    rewrite <-Hid. apply list_elem_of_fmap_2.
    apply list_elem_of_fmap. by exists (r, m).
  - rewrite bool_decide_eq_false_2 by (by intros [? ?]).
    symmetry. apply bool_decide_eq_false_2.
    by apply (items_lookup_None _ _ _ Hc).
Qed.

Lemma ids_split (ls : list (LRU.ref * Node)) k :
  k ∈ TreeNode.id <$> ls.*2 →
  ∃ ls1 x ls2, ls = ls1 ++ x :: ls2 ∧ TreeNode.id x.2 = k.
Proof.
  intros Hin. apply list_elem_of_fmap in Hin as (m & -> & Hin).
  apply list_elem_of_fmap in Hin as (x & -> & Hin).
  apply list_elem_of_split in Hin as (ls1 & ls2 & ->). by exists ls1, x, ls2.
Qed.

Lemma filter_fmap {A B} (f : A → B) (P : B → Prop) `{!∀ x, Decision (P x)}
    (l : list A) :
  filter P (f <$> l) = f <$> filter (λ x, P (f x)) l.
Proof.
  induction l as [|a l IH]; [done|]. rewrite fmap_cons, !filter_cons.
  destruct (decide (P (f a))); by rewrite IH.
Qed.

Lemma filter_all {A} (P : A → Prop) `{!∀ x, Decision (P x)} (l : list A) :
  Forall P l → filter P l = l.
Proof.
  induction 1 as [|a l Ha Hl IH]; [done|].
  by rewrite filter_cons_True, IH.
Qed.

(** the items of a list without the one of the id of [x] *)
Lemma filter_id_middle (ls1 ls2 : list (LRU.ref * Node)) x :
  NoDup (TreeNode.id <$> (ls1 ++ x :: ls2).*2) →
  filter (λ y, TreeNode.id y.2 ≠ TreeNode.id x.2) (ls1 ++ x :: ls2) = ls1 ++ ls2.
Proof.
  intros Hnd. rewrite !fmap_app, !fmap_cons in Hnd.
  apply NoDup_app_cons_inv in Hnd as [Hx _].
  assert (Forall (λ y : LRU.ref * Node, TreeNode.id y.2 ≠ TreeNode.id x.2) ls1) as H1.
  { apply Forall_forall. intros y Hy Heq. apply Hx. rewrite <-Heq.
    apply elem_of_app. left. by do 2 apply list_elem_of_fmap_2. }
  assert (Forall (λ y : LRU.ref * Node, TreeNode.id y.2 ≠ TreeNode.id x.2) ls2) as H2.
  { apply Forall_forall. intros y Hy Heq. apply Hx. rewrite <-Heq.
    apply elem_of_app. right. by do 2 apply list_elem_of_fmap_2. }
  rewrite !filter_app, !filter_cons.
  destruct (decide (TreeNode.id x.2 ≠ TreeNode.id x.2)); [done|].
  by rewrite !filter_all.
Qed.

Lemma filter_id_absent (ls : list (LRU.ref * Node)) k :
  k ∉ TreeNode.id <$> ls.*2 →
  filter (λ y, TreeNode.id y.2 ≠ k) ls = ls.
Proof.
  intros Hk. apply filter_all, Forall_forall. intros y Hy Heq. apply Hk.
  rewrite <-Heq. by do 2 apply list_elem_of_fmap_2.
Qed.

(** remove(n) takes the item of the id of [n] out of the list *)
Lemma remove_filter c ls (n : Node) :
  LRU.numPoints_by_id → LRU.repr c ls →
  ∃ c', LRU.remove n c = Ok ((), c') ∧
        LRU.repr c' (filter (λ y, TreeNode.id y.2 ≠ TreeNode.id n) ls) ∧
        LRU.pointBudget c' = LRU.pointBudget c.
Proof.
  intros Hpts Hc.
  destruct (decide (TreeNode.id n ∈ TreeNode.id <$> ls.*2)) as [Hin|Hin].
  - apply ids_split in Hin as (ls1 & x & ls2 & -> & Hid).
    destruct (remove_present c ls1 x ls2 n Hc (eq_sym Hid)) as (c' & Hrm & Hc' & Hb).
    { by apply Hpts. }
    exists c'. rewrite <-Hid.
    by rewrite (filter_id_middle ls1 ls2 x (LRU.repr_ids _ _ Hc)).
  - exists c. rewrite filter_id_absent by done.
    rewrite remove_absent; [done|]. by apply (items_lookup_None _ _ _ Hc).
Qed.

Lemma removeAll_filter c ls (ns : list Node) :
  LRU.numPoints_by_id → LRU.repr c ls →
  ∃ c', LRU.removeAll ns c = Ok ((), c') ∧
        LRU.repr c' (filter (λ y, TreeNode.id y.2 ∉ TreeNode.id <$> ns) ls) ∧
        LRU.pointBudget c' = LRU.pointBudget c.
Proof.
  intros Hpts. revert c ls. induction ns as [|n ns IH]; intros c ls Hc.
  - exists c. simpl. rewrite filter_all; [done|].
    apply Forall_forall. intros y _. apply not_elem_of_nil.
  - simpl. unfold mbind, LRU.M_bind.
    destruct (remove_filter c ls n Hpts Hc) as (c1 & -> & Hc1 & Hb1).
    destruct (IH c1 _ Hc1) as (c2 & -> & Hc2 & Hb2).
    exists c2. split_and!; [done| |congruence].
    rewrite list_filter_filter in Hc2.
    erewrite list_filter_iff; [exact Hc2|].
    intros y. simpl. rewrite not_elem_of_cons. tauto.
Qed.

(** disposeSubtree(n) takes the items of the subtree of [n] out of the list *)
Lemma disposeSubtree_filter c ls (n : Node) :
  LRU.numPoints_by_id → LRU.repr c ls →
  ∃ c', LRU.disposeSubtree n c = Ok ((), c') ∧
        LRU.repr c'
          (filter (λ y, TreeNode.id y.2 ∉ TreeNode.id <$> Eviction.subtree n) ls) ∧
        LRU.pointBudget c' = LRU.pointBudget c.
Proof. intros Hpts Hc. exact (removeAll_filter c ls (Eviction.subtree n) Hpts Hc). Qed.

Lemma evictLeastRecent_sublist fuel budget (ns ns' : list Node) :
  Eviction.evictLeastRecent fuel budget ns = Some ns' → ns' `sublist_of` ns.
Proof.
  revert ns. induction fuel as [|fuel IH]; intros ns; simpl;
    (destruct (decide (LRU.total ns > 2 * budget)); [|intros [= <-]; reflexivity]);
    [done|].
  destruct ns as [|n ns0]; [apply IH|].
  intros Hs%IH. etrans; [exact Hs|]. apply sublist_filter.
Qed.

Lemma evictLeastRecent_step fuel budget (n : Node) ns :
  LRU.total (n :: ns) > 2 * budget →
  Eviction.evictLeastRecent (S fuel) budget (n :: ns)
  = Eviction.evictLeastRecent fuel budget
      (filter (λ m, TreeNode.id m ∉ TreeNode.id <$> Eviction.subtree n) (n :: ns)).
Proof.
  intros Hgt. cbn [Eviction.evictLeastRecent].
  destruct (decide (LRU.total (n :: ns) > 2 * budget)); [reflexivity|lia].
Qed.

(** the loop of freeMemory() on the cache is the eviction of the least
    recent subtrees on its list *)
Lemma freeMemoryLoop_evicts fuel c ls :
  LRU.numPoints_by_id → LRU.repr c ls → 0 ≤ LRU.pointBudget c → (length ls ≤ fuel)%nat →
  ∃ c' ls', LRU.freeMemoryLoop fuel c = Ok ((), c') ∧ LRU.repr c' ls' ∧
            ls' `sublist_of` ls ∧
            LRU.pointBudget c' = LRU.pointBudget c ∧
            Eviction.evictLeastRecent fuel (LRU.pointBudget c) ls.*2 = Some ls'.*2.
Proof.
  intros Hpts. revert c ls. induction fuel as [|fuel IH]; intros c ls Hc Hb Hlen.
  - destruct ls; [|simpl in Hlen; lia].
    exists c, []. simpl. unfold mbind, LRU.M_bind, LRU.get. simpl.
    rewrite (repr_nil_numPoints _ Hc).
    destruct (decide (0 > LRU.pointBudget c * 2)); [lia|].
    destruct (decide (0 > 2 * LRU.pointBudget c)); [lia|done].
  - simpl. unfold mbind, LRU.M_bind, LRU.get. simpl.
    rewrite <-(LRU.repr_numPoints _ _ Hc).
    destruct (decide (LRU.numPoints c > LRU.pointBudget c * 2)) as [Hgt|Hle];
      (destruct (decide (LRU.numPoints c > 2 * LRU.pointBudget c)); try lia);
      [|by exists c, ls].
    destruct ls as [|x ls].
    { rewrite (repr_nil_numPoints _ Hc) in Hgt. lia. }
    rewrite (getLRUItem_first _ _ _ Hc).
    destruct (disposeSubtree_filter c (x :: ls) x.2 Hpts Hc) as (c1 & -> & Hc1 & Hb1).
    destruct (IH c1 _ Hc1) as (c2 & ls2 & -> & Hc2 & Hs2 & Hb2 & He2).
    { by rewrite Hb1. }
    { rewrite filter_cons_False.
      - etrans; [apply length_filter|]. simpl in Hlen. lia.
      - intros Hx. apply Hx. unfold Eviction.subtree. rewrite fmap_cons. left. }
    exists c2, ls2. split_and!; [done..| |congruence|].
    { etrans; [exact Hs2|]. apply sublist_filter. }
    rewrite Hb1 in He2. rewrite fmap_cons.
    pose proof (filter_fmap snd
                  (λ m : Node, TreeNode.id m ∉ TreeNode.id <$> Eviction.subtree x.2)
                  (x :: ls)) as Heq.
    cbv beta in Heq. rewrite <-Heq in He2. exact He2.
Qed.

(** C4, amended: freeMemory() tests the number of items once, on
    entry.  A cache with at most one item is left as it is, and so is a
    cache whose points are within twice the budget.  From a cache with more
    items it evicts the subtree of the least recent node (the node, and the
    loaded nodes that its [traverse] visits) while
    [numPoints > 2 × pointBudget], without a further test of the number of
    items: the list that is left is the one that [Eviction.evictLeastRecent]
    gives; on return the points are within twice the budget, the items that
    are left were in the cache, in this order, and when the cache was over
    the budget no node of the subtree of its least recent node is left. *)
Theorem freeMemory_tests_size_on_entry (c : LRU.LRU Node) ls (fuel : nat) :
  LRU.numPoints_by_id → LRU.repr c ls → 0 ≤ LRU.pointBudget c → (LRU.size c ≤ fuel)%nat →
  ∃ c' ls', LRU.exec (LRU.freeMemory fuel) c = Ok c' ∧ LRU.repr c' ls' ∧
            ls' `sublist_of` ls ∧
            ((LRU.size c ≤ 1)%nat → c' = c) ∧
            (LRU.numPoints c ≤ 2 * LRU.pointBudget c → c' = c) ∧
            ((1 < LRU.size c)%nat → LRU.numPoints c' ≤ 2 * LRU.pointBudget c') ∧
            LRU.forward c = Some ls.*2 ∧
            LRU.forward c' = Some ls'.*2 ∧
            ((1 < LRU.size c)%nat →
             Eviction.evictLeastRecent fuel (LRU.pointBudget c) ls.*2 = Some ls'.*2) ∧
            ((1 < LRU.size c)%nat → LRU.numPoints c > 2 * LRU.pointBudget c →
             ∀ leastRecent, head ls.*2 = Some leastRecent →
             ∀ m, m ∈ Eviction.subtree leastRecent → LRU.has m c' = false).
Proof.
  intros Hpts Hc Hb Hfuel. rewrite (repr_size _ _ Hc) in Hfuel |- *.
  destruct (decide (length ls ≤ 1)%nat) as [Hle|Hgt].
  - exists c, ls. unfold LRU.exec, LRU.freeMemory, mbind, LRU.M_bind, LRU.get. simpl.
    rewrite (repr_size _ _ Hc). destruct (decide (length ls ≤ 1)%nat); [|lia].
    split_and!; try done; try lia; by apply repr_forward.
  - destruct (freeMemoryLoop_evicts fuel c ls Hpts Hc Hb Hfuel)
      as (c' & ls' & Hrun & Hc' & Hs & Hb' & He).
    pose proof (freeMemoryLoop_post _ _ _ Hrun) as Hpost.
    assert (LRU.exec (LRU.freeMemory fuel) c = Ok c') as Hexec.
    { unfold LRU.exec, LRU.freeMemory, mbind, LRU.M_bind, LRU.get. simpl.
      rewrite (repr_size _ _ Hc). destruct (decide (length ls ≤ 1)%nat); [lia|].
      by rewrite Hrun. }
    exists c', ls'. split_and!; try done; try lia.
    + intros Hn. unfold LRU.exec in Hexec.
      rewrite freeMemory_noop in Hexec by lia. by injection Hexec.
    + by apply repr_forward.
    + by apply repr_forward.
    + intros _ Hover n Hn m Hm. rewrite (has_repr _ _ m Hc').
      apply bool_decide_eq_false_2. intros Hin.
      destruct ls as [|x ls0]; [done|]. injection Hn as <-.
      rewrite (LRU.repr_numPoints _ _ Hc) in Hover.
      destruct fuel as [|fuel']; [simpl in Hfuel; lia|].
      rewrite fmap_cons in He, Hover.
      rewrite evictLeastRecent_step in He by lia.
      apply evictLeastRecent_sublist in He.
      apply list_elem_of_fmap in Hin as (m' & Hid & Hm').
      apply (elem_of_sublist _ _ _ Hm') in He. rename He into Hm''.
      apply list_elem_of_filter in Hm'' as [Hnot _]. apply Hnot. rewrite <-Hid.
      by apply list_elem_of_fmap_2.
Qed.

(** C10: remove(node) on a node that has no item in the cache
    returns without an error and leaves every field of the cache, and the
    items of its list, as they were. *)
Theorem remove_without_item (c : LRU.LRU Node) (n : Node) :
  LRU.has n c = false → LRU.remove n c = Ok ((), c).
Proof.
  unfold LRU.has. intros Hhas. apply remove_absent.
  apply bool_decide_eq_false in Hhas. by apply eq_None_not_Some.
Qed.
End lru_facts.

(** ** The scheduler *)

Section potree_facts.
Context `{ThreeJS} {Node : Type} `{!TreeNode.IPointCloudTreeNode Node}.
Context `{!Collaborators Node} {Q : Type}.
Context `{!BinaryHeap (Potree.QueueItem Node) Q}.
Local Open Scope Z_scope.
Implicit Types (p : Potree.Potree Node) (st : Potree.Structures Node Q).
Implicit Types (s : Potree.Frame Node Q) (qi : Potree.QueueItem Node).
Implicit Types (e : Potree.Exit) (n : Node) (i : nat).

Lemma treeStep_fields i n s s' :
  Potree.treeStep i n s = Ok s' →
  Potree.frame_numVisiblePoints s' = Potree.frame_numVisiblePoints s ∧
  Potree.unloadedGeometry s' = Potree.unloadedGeometry s ∧
  Potree.loadedToGPUThisFrame s' = Potree.loadedToGPUThisFrame s ∧
  Potree.exceededMaxLoadsToGPU s' = Potree.exceededMaxLoadsToGPU s ∧
  Potree.nodeLoadFailed s' = Potree.nodeLoadFailed s ∧
  Potree.queue s' = Potree.queue s.
Proof.
  unfold Potree.treeStep, Potree.updateTreeNodeVisibility.
  destruct (TreeNode.isTreeNode n); [|by intros [= <-]].
  destruct (LRU.exec _ _); try done. by intros [= <-].
Qed.

Lemma expand_fields st camera renderer qi n s s' :
  Potree.expand st camera renderer qi n s = Ok s' →
  Potree.frame_numVisiblePoints s' = Potree.frame_numVisiblePoints s ∧
  Potree.frame_visibleNodes s' = Potree.frame_visibleNodes s ∧
  Potree.unloadedGeometry s' = Potree.unloadedGeometry s ∧
  Potree.loadedToGPUThisFrame s' = Potree.loadedToGPUThisFrame s ∧
  Potree.exceededMaxLoadsToGPU s' = Potree.exceededMaxLoadsToGPU s ∧
  Potree.nodeLoadFailed s' = Potree.nodeLoadFailed s ∧
  Potree.pointClouds s' = Potree.pointClouds s ∧
  Potree.cache s' = Potree.cache s.
Proof.
  unfold Potree.expand.
  destruct (Potree.pointClouds s !! _); [|done].
  destruct (Potree.cameraPositions st !! _); [|done].
  by intros [= <-].
Qed.

(** The ways an iteration of the loop can end, read off [visit]. *)
Lemma visit_inv p st camera renderer qi s e s' :
  Potree.visit p st camera renderer qi s = Ok (e, s') →
  let n := Potree.node qi in
  let i := Potree.pointCloudIndex qi in
  (e = Potree.Break ∧ s' = s ∧
   Potree.frame_numVisiblePoints s + TreeNode.numPoints n > Potree.pointBudget p)
  ∨ ∃ pointCloud,
      Potree.pointClouds s !! i = Some pointCloud ∧
      Potree.frame_numVisiblePoints s + TreeNode.numPoints n ≤ Potree.pointBudget p ∧
      ((e = Potree.Culled ∧ s' = s ∧ Potree.culled st pointCloud i n = Ok true)
       ∨ (Potree.culled st pointCloud i n = Ok false ∧
          match
            Potree.geometryStep i
              (Potree.addVisiblePoints (TreeNode.numPoints n) pointCloud) n
              (Potree.parent qi) (Potree.accept i n s)
          with
          | Potree.LoadFailed s2 => e = Potree.Failed ∧ s' = s2
          | Potree.ToTreeNode n' s2 =>
              e = Potree.Promoted ∧
              ∃ s3, Potree.treeStep i n' s2 = Ok s3 ∧
                    Potree.expand st camera renderer qi n' s3 = Ok s'
          | Potree.Unchanged n' s2 =>
              e = Potree.Expanded ∧
              ∃ s3, Potree.treeStep i n' s2 = Ok s3 ∧
                    Potree.expand st camera renderer qi n' s3 = Ok s'
          end)).
Proof.
  intros Hv n i. unfold Potree.visit in Hv. fold n i in Hv.
  destruct (decide (_ > _)) as [Hgt|Hle].
  { injection Hv as <- <-. by left. }
  right. destruct (Potree.pointClouds s !! i) as [pointCloud|]; [|done].
  exists pointCloud. split; [done|]. split; [lia|].
  destruct (Potree.culled st pointCloud i n) as [[]| |]; try done.
  { injection Hv as <- <-. by left. }
  right. split; [done|].
  destruct (Potree.geometryStep _ _ _ _ _) as [s2|n' s2|n' s2].
  - by injection Hv as <- <-.
  - destruct (Potree.treeStep i n' s2) as [s3| |]; try done.
    destruct (Potree.expand _ _ _ _ _ s3) as [s4| |] eqn:He; try done.
    injection Hv as <- <-. eauto.
  - destruct (Potree.treeStep i n' s2) as [s3| |]; try done.
    destruct (Potree.expand _ _ _ _ _ s3) as [s4| |] eqn:He; try done.
    injection Hv as <- <-. eauto.
Qed.

Lemma culled_false st pointCloud i n :
  Potree.culled st pointCloud i n = Ok false →
  ∃ frustum, Potree.frustums st !! i = Some frustum ∧
             frustumIntersectsBox frustum (TreeNode.boundingBox n) = true ∧
             Potree.shouldClip pointCloud (TreeNode.boundingBox n) = false ∧
             match maxLevel pointCloud with
             | Some m => TreeNode.level n ≤ m
             | None => True
             end.
Proof.
  unfold Potree.culled.
  destruct (maxLevel pointCloud) as [m|].
  - case_bool_decide as Hm; [done|].
    destruct (Potree.frustums st !! i) as [frustum|]; [|done].
    destruct (frustumIntersectsBox _ _) eqn:Hi; simpl; [|done].
    intros [= ->]. exists frustum. split_and!; try done; lia.
  - destruct (Potree.frustums st !! i) as [frustum|]; [|done].
    destruct (frustumIntersectsBox _ _) eqn:Hi; simpl; [|done].
    intros [= ->]. by exists frustum.
Qed.

Lemma geometryStep_fields i pointCloud n parentNode s :
  match Potree.geometryStep i pointCloud n parentNode s with
  | Potree.LoadFailed s2 =>
      Potree.frame_numVisiblePoints s2 = Potree.frame_numVisiblePoints s ∧
      Potree.loadedToGPUThisFrame s2 = Potree.loadedToGPUThisFrame s
  | Potree.ToTreeNode _ s2 =>
      Potree.frame_numVisiblePoints s2 = Potree.frame_numVisiblePoints s ∧
      Potree.loadedToGPUThisFrame s2 = S (Potree.loadedToGPUThisFrame s) ∧
      (Potree.loadedToGPUThisFrame s < MAX_LOADS_TO_GPU)%nat
  | Potree.Unchanged _ s2 =>
      Potree.frame_numVisiblePoints s2 = Potree.frame_numVisiblePoints s ∧
      Potree.loadedToGPUThisFrame s2 = Potree.loadedToGPUThisFrame s
  end.
Proof.
  unfold Potree.geometryStep.
  destruct (TreeNode.isGeometryNode n && _); [|done].
  destruct (TreeNode.loaded n); simpl.
  - case_bool_decide; simpl; [done|]. by destruct (TreeNode.failed n).
  - by destruct (TreeNode.failed n).
Qed.

(** An iteration that does not end at the [break] or at the [continue] of
    the culling tests has found the node's box to intersect
    [frustums[pointCloudIndex]], and has counted the node's points. *)
Lemma visit_accepted p st camera renderer qi s e s' :
  Potree.visit p st camera renderer qi s = Ok (e, s') →
  e ≠ Potree.Break → e ≠ Potree.Culled →
  (∃ frustum,
     Potree.frustums st !! Potree.pointCloudIndex qi = Some frustum ∧
     frustumIntersectsBox frustum (TreeNode.boundingBox (Potree.node qi)) = true) ∧
  Potree.frame_numVisiblePoints s' =
    Potree.frame_numVisiblePoints s + TreeNode.numPoints (Potree.node qi) ∧
  Potree.frame_numVisiblePoints s' ≤ Potree.pointBudget p.
Proof.
  intros Hv Hb Hc. apply visit_inv in Hv.
  destruct Hv as [(-> & _)|(pointCloud & Hpc & Hle & [(-> & _)|(Hcull & Hg)])];
    try done.
  apply culled_false in Hcull as (frustum & Hf & Hi & _).
  split; [by exists frustum|].
  pose proof (geometryStep_fields (Potree.pointCloudIndex qi)
    (Potree.addVisiblePoints (TreeNode.numPoints (Potree.node qi)) pointCloud)
    (Potree.node qi) (Potree.parent qi)
    (Potree.accept (Potree.pointCloudIndex qi) (Potree.node qi) s)) as Hgf.
  destruct (Potree.geometryStep _ _ _ _ _) as [s2|n' s2|n' s2].
  - destruct Hg as [-> ->]. destruct Hgf as [-> _]. simpl. lia.
  - destruct Hg as (-> & s3 & (Ht & _)%treeStep_fields & (He & _)%expand_fields).
    destruct Hgf as (Hgf & _). rewrite He, Ht, Hgf. simpl. lia.
  - destruct Hg as (-> & s3 & (Ht & _)%treeStep_fields & (He & _)%expand_fields).
    destruct Hgf as (Hgf & _). rewrite He, Ht, Hgf. simpl. lia.
Qed.

Lemma visit_rejected p st camera renderer qi s e s' :
  Potree.visit p st camera renderer qi s = Ok (e, s') →
  e = Potree.Break ∨ e = Potree.Culled → s' = s.
Proof.
  intros Hv He. apply visit_inv in Hv.
  destruct Hv as [(-> & -> & _)|(pointCloud & Hpc & Hle & [(-> & -> & _)|(Hcull & Hg)])];
    try done.
  destruct (Potree.geometryStep _ _ _ _ _); destruct He, Hg as (-> & _); done.
Qed.

Lemma visit_budget p st camera renderer qi s e s' :
  Potree.visit p st camera renderer qi s = Ok (e, s') →
  Potree.frame_numVisiblePoints s ≤ Potree.pointBudget p →
  Potree.frame_numVisiblePoints s' ≤ Potree.pointBudget p.
Proof.
  intros Hv Hs.
  destruct (decide (e = Potree.Break ∨ e = Potree.Culled)) as [He|He].
  - by rewrite (visit_rejected _ _ _ _ _ _ _ _ Hv He).
  - eapply visit_accepted; [exact Hv|..]; intros ->; apply He; auto.
Qed.

(** The counter of promotions goes up by one in an iteration that calls
    [toTreeNode], which happens below the cap only, and stays in any
    other. *)
Lemma visit_promotions p st camera renderer qi s e s' :
  Potree.visit p st camera renderer qi s = Ok (e, s') →
  if decide (e = Potree.Promoted)
  then Potree.loadedToGPUThisFrame s' = S (Potree.loadedToGPUThisFrame s) ∧
       (Potree.loadedToGPUThisFrame s < MAX_LOADS_TO_GPU)%nat
  else Potree.loadedToGPUThisFrame s' = Potree.loadedToGPUThisFrame s.
Proof.
  intros Hv. apply visit_inv in Hv.
  destruct Hv as [(-> & -> & _)|(pointCloud & Hpc & Hle & [(-> & -> & _)|(Hcull & Hg)])];
    try done.
  pose proof (geometryStep_fields (Potree.pointCloudIndex qi)
    (Potree.addVisiblePoints (TreeNode.numPoints (Potree.node qi)) pointCloud)
    (Potree.node qi) (Potree.parent qi)
    (Potree.accept (Potree.pointCloudIndex qi) (Potree.node qi) s)) as Hgf.
  destruct (Potree.geometryStep _ _ _ _ _) as [s2|n' s2|n' s2].
  - destruct Hg as [-> ->]. by destruct Hgf as [_ ->].
  - destruct Hg as (-> & s3 & Ht%treeStep_fields & He%expand_fields).
    destruct Hgf as (_ & Hgf & Hlt). simpl.
    destruct Ht as (_ & _ & -> & _) in He. destruct He as (_ & _ & _ & -> & _).
    by rewrite Hgf.
  - destruct Hg as (-> & s3 & Ht%treeStep_fields & He%expand_fields).
    destruct Hgf as (_ & Hgf). simpl.
    destruct Ht as (_ & _ & Ht & _). destruct He as (_ & _ & _ & He & _).
    by rewrite He, Ht, Hgf.
Qed.

Lemma setQueue_fields (q : Q) s :
  Potree.frame_numVisiblePoints (Potree.setQueue q s) = Potree.frame_numVisiblePoints s ∧
  Potree.loadedToGPUThisFrame (Potree.setQueue q s) = Potree.loadedToGPUThisFrame s.
Proof. done. Qed.

Lemma visited_tested p st camera renderer fuel s :
  Forall (Potree.testedAgainst st) (Potree.visited p st camera renderer fuel s).
Proof.
  revert s. induction fuel as [|fuel IH]; intros s; simpl; [done|].
  destruct (pop (Potree.queue s)) as [[qi q]|]; [|done].
  destruct (Potree.visit _ _ _ _ _ _) as [[e s']| |] eqn:Hv; try done.
  assert (Potree.testedAgainst st (qi, e)) as Ht.
  { intros Hb Hc. by eapply visit_accepted. }
  destruct e; constructor; try done; apply IH.
Qed.

Lemma traversal_budget p st camera renderer fuel s s' :
  Potree.traversal p st camera renderer fuel s = Ok s' →
  Potree.frame_numVisiblePoints s ≤ Potree.pointBudget p →
  Potree.frame_numVisiblePoints s' ≤ Potree.pointBudget p.
Proof.
  revert s. induction fuel as [|fuel IH]; intros s; simpl.
  - destruct (pop (Potree.queue s)) as [[qi q]|]; [done|]. by intros [= <-].
  - destruct (pop (Potree.queue s)) as [[qi q]|]; [|by intros [= <-]].
    destruct (Potree.visit _ _ _ _ _ _) as [[e s1]| |] eqn:Hv; try done.
    intros Ht Hs. apply visit_budget in Hv; [|done].
    destruct e; try (by eapply IH). by injection Ht as <-.
Qed.

Lemma traversal_promotions p st camera renderer fuel s s' :
  Potree.traversal p st camera renderer fuel s = Ok s' →
  Potree.loadedToGPUThisFrame s' =
    (Potree.loadedToGPUThisFrame s
     + Potree.promotions (Potree.visited p st camera renderer fuel s))%nat.
Proof.
  revert s. induction fuel as [|fuel IH]; intros s; simpl.
  - destruct (pop (Potree.queue s)) as [[qi q]|]; [done|].
    intros [= <-]. lia.
  - destruct (pop (Potree.queue s)) as [[qi q]|]; [|intros [= <-]; simpl; lia].
    destruct (Potree.visit _ _ _ _ _ _) as [[e s1]| |] eqn:Hv; try done.
    apply visit_promotions in Hv. intros Ht.
    destruct e; simpl in Hv |- *;
      try (injection Ht as <-; lia);
      apply IH in Ht; rewrite Ht; destruct_and?; lia.
Qed.

Lemma visited_promotions p st camera renderer fuel s :
  (Potree.loadedToGPUThisFrame s ≤ MAX_LOADS_TO_GPU)%nat →
  (Potree.loadedToGPUThisFrame s
   + Potree.promotions (Potree.visited p st camera renderer fuel s)
   ≤ MAX_LOADS_TO_GPU)%nat.
Proof.
  revert s. induction fuel as [|fuel IH]; intros s Hs; simpl; [lia|].
  destruct (pop (Potree.queue s)) as [[qi q]|]; [|simpl; lia].
  destruct (Potree.visit _ _ _ _ _ _) as [[e s1]| |] eqn:Hv; try (simpl; lia).
  apply visit_promotions in Hv.
  destruct e; simpl in Hv |- *; try lia; destruct_and?;
    specialize (IH s1); lia.
Qed.

Lemma structuresLoop_frustums camera st i pcs :
  Forall (λ pc, initialized pc = true) pcs →
  Potree.frustums (Potree.structuresLoop camera st i pcs) =
    Potree.frustums st ++ (Potree.cloudFrustum camera <$> pcs).
Proof.
  revert st i. induction pcs as [|pc pcs IH]; intros st i Hin; simpl.
  - by rewrite app_nil_r.
  - apply Forall_cons in Hin as [Hpc Hin]. rewrite (IH _ _ Hin).
    unfold Potree.structuresStep. rewrite Hpc. simpl.
    by rewrite <-app_assoc.
Qed.

Lemma structures_frustums camera pcs :
  Forall (λ pc, initialized pc = true) pcs →
  Potree.frustums (Potree.updateVisibilityStructures pcs camera) =
    Potree.cloudFrustum camera <$> pcs.
Proof. intros Hin. unfold Potree.updateVisibilityStructures. by rewrite structuresLoop_frustums. Qed.

Lemma childStep_item qi pointCloud n cameraPosition camera halfHeight q child :
  Potree.childStep qi pointCloud n cameraPosition camera halfHeight q child
  = match child ≫= Potree.childItem qi pointCloud n cameraPosition camera halfHeight with
    | Some item => push item q
    | None => q
    end.
Proof.
  destruct child as [child|]; [|done]. simpl.
  unfold Potree.childItem, Potree.screenPixelRadius.
  destruct (String.eqb (type camera) PERSPECTIVE_CAMERA);
    by destruct (PrimFloat.ltb _ (minNodePixelSize pointCloud)).
Qed.

(** C7: for each child that is present, the projected radius in
    pixels is [radius × (halfHeight / (tan(fov/2) × distance))] under a
    perspective camera, [fov] being the camera's angle in radians, and
    [radius × (2 × halfHeight / (top − bottom))] under any other; a child
    whose projected radius is below [minNodePixelSize] is not pushed; any
    other child is pushed, for the same cloud and with the expanded node as
    its parent, with weight [Number.MAX_VALUE] when [distance < radius] and
    [projected radius + 1 / distance] otherwise; absent children are
    skipped and the children are pushed in the order of their slots. *)
Theorem updateChildVisibility_pushes (qi : Potree.QueueItem Node) (q : Q)
    (pointCloud : PointCloudOctree Node) (n : Node) (cameraPosition : Vector3)
    (camera : Camera) (halfHeight : float) :
  Potree.updateChildVisibility qi q pointCloud n cameraPosition camera halfHeight
  = foldl (λ q item, push item q) q
      (omap (λ child,
               child ≫= Potree.childItem qi pointCloud n cameraPosition camera halfHeight)
         (TreeNode.children n)).
Proof.
  unfold Potree.updateChildVisibility.
  generalize (TreeNode.children n). intros l. revert q.
  induction l as [|child l IH]; intros q; [done|].
  cbn [foldl omap list_omap]. rewrite childStep_item.
  destruct (child ≫= _); apply IH.
Qed.

Lemma fmap_alter_same {A B} (f : A → B) (g : A → A) (i : nat) (l : list A) :
  (∀ x, f (g x) = f x) → f <$> alter g i l = f <$> l.
Proof.
  intros Hfg. revert i. induction l as [|x l IH]; intros [|i]; simpl; try done.
  - by rewrite Hfg.
  - f_equal. apply IH.
Qed.

Lemma culled_passes st pointCloud i n frustum :
  match maxLevel pointCloud with
  | Some m => TreeNode.level n ≤ m
  | None => True
  end →
  Potree.frustums st !! i = Some frustum →
  frustumIntersectsBox frustum (TreeNode.boundingBox n) = true →
  Potree.shouldClip pointCloud (TreeNode.boundingBox n) = false →
  Potree.culled st pointCloud i n = Ok false.
Proof.
  intros Hl Hf Hi Hc. unfold Potree.culled. rewrite Hf, Hi, Hc. simpl.
  destruct (maxLevel pointCloud) as [m|]; [|done].
  case_bool_decide; [lia|done].
Qed.

(** the frame that the [continue] of line 192 leaves *)
Lemma visit_failed p st camera renderer qi s pointCloud frustum :
  let n := Potree.node qi in
  let i := Potree.pointCloudIndex qi in
  Potree.frame_numVisiblePoints s + TreeNode.numPoints n ≤ Potree.pointBudget p →
  Potree.pointClouds s !! i = Some pointCloud →
  match maxLevel pointCloud with
  | Some m => TreeNode.level n ≤ m
  | None => True
  end →
  Potree.frustums st !! i = Some frustum →
  frustumIntersectsBox frustum (TreeNode.boundingBox n) = true →
  Potree.shouldClip pointCloud (TreeNode.boundingBox n) = false →
  TreeNode.isGeometryNode n = true →
  match Potree.parent qi with
  | Some parentNode => TreeNode.isTreeNode parentNode = true
  | None => True
  end →
  TreeNode.failed n = true →
  TreeNode.loaded n = false ∨ (MAX_LOADS_TO_GPU ≤ Potree.loadedToGPUThisFrame s)%nat →
  Potree.visit p st camera renderer qi s =
    Ok (Potree.Failed,
        Potree.mkFrame
          (Potree.frame_numVisiblePoints s + TreeNode.numPoints n)
          (Potree.frame_visibleNodes s) (Potree.unloadedGeometry s)
          (Potree.loadedToGPUThisFrame s) (Potree.exceededMaxLoadsToGPU s)
          true (Potree.queue s)
          (alter (Potree.addVisiblePoints (TreeNode.numPoints n)) i
             (Potree.pointClouds s))
          (Potree.cache s)).
Proof.
  intros n i Hb Hpc Hl Hf Hi Hc Hg Hp Hfail Hnot.
  unfold Potree.visit. fold n i.
  destruct (decide (_ > _)); [lia|].
  rewrite Hpc, (culled_passes _ _ _ _ _ Hl Hf Hi Hc).
  unfold Potree.geometryStep. rewrite Hg, Hfail. simpl.
  assert (match Potree.parent qi with
          | Some p0 => TreeNode.isTreeNode p0
          | None => true
          end = true) as ->.
  { destruct (Potree.parent qi); done. }
  destruct Hnot as [->|Hcap]; [done|].
  rewrite bool_decide_eq_false_2 by lia. by rewrite andb_false_r.
Qed.


Lemma visit_nodeLoadFailed p st camera renderer qi s e s' :
  Potree.visit p st camera renderer qi s = Ok (e, s') →
  Potree.nodeLoadFailed s = true → Potree.nodeLoadFailed s' = true.
Proof.
  intros Hv Hs. apply visit_inv in Hv.
  destruct Hv as [(_ & -> & _)|(pc & _ & _ & [(_ & -> & _)|(_ & Hg)])]; try done.
  revert Hg. unfold Potree.geometryStep.
  assert (∀ n' (s2 s3 s4 : Potree.Frame Node Q),
    Potree.treeStep (Potree.pointCloudIndex qi) n' s2 = Ok s3 →
    Potree.expand st camera renderer qi n' s3 = Ok s4 →
    Potree.nodeLoadFailed s4 = Potree.nodeLoadFailed s2) as Hrest.
  { intros n' s2 s3 s4 Ht%treeStep_fields He%expand_fields.
    destruct Ht as (_ & _ & _ & _ & <- & _). by destruct He as (_ & _ & _ & _ & _ & -> & _). }
  destruct (TreeNode.isGeometryNode _ && _).
  - destruct (TreeNode.loaded _ && _).
    + intros (_ & s3 & Ht & He). by rewrite (Hrest _ _ _ _ Ht He).
    + destruct (negb _); [|by intros [_ ->]].
      intros (_ & s3 & Ht & He). by rewrite (Hrest _ _ _ _ Ht He).
  - intros (_ & s3 & Ht & He). by rewrite (Hrest _ _ _ _ Ht He).
Qed.

Lemma traversal_nodeLoadFailed p st camera renderer fuel s s' :
  Potree.traversal p st camera renderer fuel s = Ok s' →
  Potree.nodeLoadFailed s = true → Potree.nodeLoadFailed s' = true.
Proof.
  revert s. induction fuel as [|fuel IH]; intros s; simpl.
  - destruct (pop (Potree.queue s)) as [[qi q]|]; [done|]. by intros [= <-].
  - destruct (pop (Potree.queue s)) as [[qi q]|]; [|by intros [= <-]].
    destruct (Potree.visit _ _ _ _ _ _) as [[e s1]| |] eqn:Hv; try done.
    intros Ht Hs. apply visit_nodeLoadFailed in Hv; [|done].
    destruct e; try (by eapply IH). by injection Ht as <-.
Qed.

(** C6, amended: when a geometry node that has [failed] set, is not
    loaded (or is popped when the cap of promotions is reached), and has no
    parent or a tree node as its parent, is popped and passes the budget,
    level, frustum and clip tests, the iteration ends at the [continue] of
    line 192: the flag [nodeLoadFailed] is set, and stays set to the end of the
    traversal; nothing is pushed on the queue; the node is added neither to
    the visible nodes of the frame or of a cloud, nor to the visible
    geometry of a cloud, nor to the unloaded geometry, from which the nodes
    to load are taken. *)
Theorem failed_node_is_skipped (p : Potree.Potree Node)
    (st : Potree.Structures Node Q) (camera : Camera) (renderer : WebGLRenderer)
    (qi : Potree.QueueItem Node) (s : Potree.Frame Node Q)
    (pointCloud : PointCloudOctree Node) (frustum : Frustum) :
  let n := Potree.node qi in
  let i := Potree.pointCloudIndex qi in
  Potree.frame_numVisiblePoints s + TreeNode.numPoints n ≤ Potree.pointBudget p →
  Potree.pointClouds s !! i = Some pointCloud →
  match maxLevel pointCloud with
  | Some m => TreeNode.level n ≤ m
  | None => True
  end →
  Potree.frustums st !! i = Some frustum →
  frustumIntersectsBox frustum (TreeNode.boundingBox n) = true →
  Potree.shouldClip pointCloud (TreeNode.boundingBox n) = false →
  TreeNode.isGeometryNode n = true →
  match Potree.parent qi with
  | Some parentNode => TreeNode.isTreeNode parentNode = true
  | None => True
  end →
  TreeNode.failed n = true →
  TreeNode.loaded n = false ∨ (MAX_LOADS_TO_GPU ≤ Potree.loadedToGPUThisFrame s)%nat →
  ∃ s', Potree.visit p st camera renderer qi s = Ok (Potree.Failed, s') ∧
        Potree.nodeLoadFailed s' = true ∧
        (∀ fuel s'', Potree.traversal p st camera renderer fuel s' = Ok s'' →
                     Potree.nodeLoadFailed s'' = true) ∧
        Potree.queue s' = Potree.queue s ∧
        Potree.frame_visibleNodes s' = Potree.frame_visibleNodes s ∧
        Potree.unloadedGeometry s' = Potree.unloadedGeometry s ∧
        visibleNodes <$> Potree.pointClouds s' = visibleNodes <$> Potree.pointClouds s ∧
        visibleGeometry <$> Potree.pointClouds s' =
          visibleGeometry <$> Potree.pointClouds s.
Proof.
  intros n i Hb Hpc Hl Hf Hi Hc Hg Hp Hfail Hnot.
  eexists. split; [by eapply visit_failed|]. simpl.
  split_and!; try done.
  - intros fuel s'' Ht. by eapply traversal_nodeLoadFailed.
  - by apply fmap_alter_same.
  - by apply fmap_alter_same.
Qed.

Lemma traversal_unfold_break p st camera renderer fuel s qi q :
  pop (Potree.queue s) = Some (qi, q) →
  Potree.frame_numVisiblePoints s + TreeNode.numPoints (Potree.node qi)
    > Potree.pointBudget p →
  Potree.traversal p st camera renderer (S fuel) s = Ok (Potree.setQueue q s) ∧
  Potree.visited p st camera renderer (S fuel) s = [(qi, Potree.Break)].
Proof.
  intros Hpop Hgt. simpl. rewrite Hpop. unfold Potree.visit. simpl.
  by destruct (decide (_ > _)).
Qed.

(** C1: with a point budget of 100, when the queue yields first
    an item A of 60 points, which the traversal accepts, and then an item B
    of 50 points, the traversal accepts A and stops at B: A and B are the
    only items popped, B ends the loop at the budget test, and the result
    of updateVisibility has [numVisiblePoints = 60]. *)
Theorem budget_stops_traversal (p : Potree.Potree Node)
    (pointClouds0 : list (PointCloudOctree Node)) (camera : Camera)
    (renderer : WebGLRenderer) (a b : Potree.QueueItem Node) (q1 q2 : Q)
    (e : Potree.Exit) (s1 : Potree.Frame Node Q) (fuel : nat) :
  let st := Potree.updateVisibilityStructures pointClouds0 camera in
  let s0 := Potree.initialFrame p st in
  Potree.pointBudget p = 100 →
  pop (Potree.queue s0) = Some (a, q1) →
  TreeNode.numPoints (Potree.node a) = 60 →
  Potree.visit p st camera renderer a (Potree.setQueue q1 s0) = Ok (e, s1) →
  e = Potree.Promoted ∨ e = Potree.Expanded →
  pop (Potree.queue s1) = Some (b, q2) →
  TreeNode.numPoints (Potree.node b) = 50 →
  (2 ≤ fuel)%nat →
  Potree.visited p st camera renderer fuel s0 = [(a, e); (b, Potree.Break)] ∧
  ∃ r pointClouds' p',
    Potree.updateVisibility fuel p pointClouds0 camera renderer
      = Ok (r, pointClouds', p') ∧
    Potree.result_numVisiblePoints r = 60.
Proof.
  intros st s0 Hbudget Hpa Ha Hva He Hpb Hb Hfuel.
  destruct fuel as [|[|fuel]]; [lia..|].
  assert (Potree.frame_numVisiblePoints s1 = 60) as Hs1.
  { eapply visit_accepted in Hva as (_ & -> & _); [|by destruct He as [-> | ->]..].
    simpl. lia. }
  destruct (traversal_unfold_break p st camera renderer fuel s1 b q2 Hpb)
    as [Ht Hvis]; [lia|].
  split.
  - change (Potree.visited p st camera renderer (S (S fuel)) s0) with
      (match pop (Potree.queue s0) with
       | Some (queueItem, q) =>
           match Potree.visit p st camera renderer queueItem (Potree.setQueue q s0) with
           | Ok (Potree.Break, _) => [(queueItem, Potree.Break)]
           | Ok (e, s') =>
               (queueItem, e) :: Potree.visited p st camera renderer (S fuel) s'
           | _ => []
           end
       | None => []
       end).
    rewrite Hpa, Hva, Hvis. by destruct He as [-> | ->].
  - unfold Potree.updateVisibility. fold st s0.
    change (Potree.traversal p st camera renderer (S (S fuel)) s0) with
      (match pop (Potree.queue s0) with
       | None => Ok s0
       | Some (queueItem, q) =>
           match Potree.visit p st camera renderer queueItem (Potree.setQueue q s0) with
           | Ok (Potree.Break, s') => Ok s'
           | Ok (_, s') => Potree.traversal p st camera renderer (S fuel) s'
           | TypeError => TypeError
           | OutOfFuel => OutOfFuel
           end
       end).
    rewrite Hpa, Hva.
    assert (match e with
            | Potree.Break => Ok s1
            | _ => Potree.traversal p st camera renderer (S fuel) s1
            end = Ok (Potree.setQueue q2 s1)) as ->.
    { by destruct He as [-> | ->]. }
    eexists _, _, _. split; [done|]. simpl. exact Hs1.
Qed.

(** The invariants of a traversal: each item that is counted as visible had
    its box intersect [frustums[pointCloudIndex]], which is the frustum of
    the item's own cloud when every cloud of the list is initialized; at
    most [MAX_LOADS_TO_GPU] iterations call [toTreeNode]; and with a budget
    that is not negative the count of visible points that updateVisibility
    returns is within the budget. *)
Theorem traversal_invariants (p : Potree.Potree Node)
    (pointClouds0 : list (PointCloudOctree Node)) (camera : Camera)
    (renderer : WebGLRenderer) (fuel : nat) :
  0 ≤ Potree.pointBudget p →
  let st := Potree.updateVisibilityStructures pointClouds0 camera in
  let s0 := Potree.initialFrame p st in
  Forall (Potree.testedAgainst st) (Potree.visited p st camera renderer fuel s0) ∧
  (Potree.promotions (Potree.visited p st camera renderer fuel s0)
   ≤ MAX_LOADS_TO_GPU)%nat ∧
  (∀ r pointClouds' p',
     Potree.updateVisibility fuel p pointClouds0 camera renderer
       = Ok (r, pointClouds', p') →
     Potree.result_numVisiblePoints r ≤ Potree.pointBudget p) ∧
  (Forall (λ pc, initialized pc = true) pointClouds0 →
   Potree.frustums st = Potree.cloudFrustum camera <$> pointClouds0).
Proof.
  intros Hb st s0. split_and!.
  - apply visited_tested.
  - pose proof (visited_promotions p st camera renderer fuel s0) as Hp.
    simpl in Hp. apply Hp. lia.
  - intros r pointClouds' p'. unfold Potree.updateVisibility. fold st s0.
    destruct (Potree.traversal p st camera renderer fuel s0) as [s| |] eqn:Ht;
      try done.
    intros [= <- _ _]. simpl. by eapply traversal_budget.
  - apply structures_frustums.
Qed.


End potree_facts.

(** ** The properties on concrete caches and frames *)

#[local] Existing Instance Scenario.three.
#[local] Existing Instance Scenario.snode.
#[local] Existing Instance Scenario.znode.
#[local] Existing Instance Scenario.collaborators.
#[local] Existing Instance ListHeap.list_heap.

Lemma cache12_reached b :
  LRU.exec (LRU.touchAll [1; 2]%Z) (LRU.new b) = Ok (Scenario.cache12 b).
Proof. reflexivity. Qed.

Lemma cache123_reached b :
  LRU.exec (LRU.touchAll [1; 2; 3]%Z) (LRU.new b) = Ok (Scenario.cache123 b).
Proof. reflexivity. Qed.

Lemma znode_numPoints_by_id : LRU.numPoints_by_id (Node := Z).
Proof. by intros a b _. Qed.

Lemma cache123_repr b : LRU.repr (Scenario.cache123 b) Scenario.items123.
Proof.
  split; try reflexivity.
  - by repeat split.
  - apply (bool_decide_unpack _). by vm_compute.
  - apply (bool_decide_unpack _). by vm_compute.
Qed.

(** C3 on the cache that holds the nodes 1, 2 and 3, of 400 points each,
    with a budget of 1000. *)
Lemma freeMemory_enforces_budget_witness :
  LRU.numPoints_by_id (Node := Z) ∧
  LRU.wellFormed (Scenario.cache123 1000) ∧
  (0 ≤ LRU.pointBudget (Scenario.cache123 1000))%Z ∧
  ∃ c', LRU.exec (LRU.freeMemory 3) (Scenario.cache123 1000) = Ok c' ∧
        LRU.wellFormed c' ∧
        ((LRU.numPoints c' ≤ 2 * LRU.pointBudget c')%Z ∨ LRU.size c' ≤ 1).
Proof.
  split; [exact znode_numPoints_by_id|].
  split; [exists Scenario.items123; apply cache123_repr|].
  split; [simpl; lia|].
  apply (freeMemory_enforces_budget (Scenario.cache123 1000));
    [exact znode_numPoints_by_id
    |exists Scenario.items123; apply cache123_repr
    |simpl; lia
    |vm_compute; lia].
Defined.

(** C4 is false on the cache that holds the nodes 1 and 2, which two
    touches build: with a budget of 100, freeMemory() leaves it empty. *)
Lemma freeMemory_empties_cache :
  LRU.exec (LRU.touchAll [1; 2]%Z) (LRU.new 100) = Ok (Scenario.cache12 100) ∧
  LRU.size (Scenario.cache12 100) = 2 ∧
  ∃ c', LRU.exec (LRU.freeMemory 2) (Scenario.cache12 100) = Ok c' ∧
        LRU.size c' = 0.
Proof. split; [reflexivity|]. split; [reflexivity|]. eexists. split; reflexivity. Qed.

Lemma cache12_repr b :
  LRU.repr (Scenario.cache12 b) [(1%positive, 1%Z); (2%positive, 2%Z)].
Proof.
  split; try reflexivity.
  - by repeat split.
  - apply (bool_decide_unpack _). by vm_compute.
  - apply (bool_decide_unpack _). by vm_compute.
Qed.

Section subtree_eviction.
#[local] Existing Instance Scenario.ztree.

Lemma ztree_numPoints_by_id : LRU.numPoints_by_id (Node := Z).
Proof. by intros a b _. Qed.

Lemma ztree_cache123_repr b : LRU.repr (Scenario.cache123 b) Scenario.items123.
Proof.
  split; try reflexivity.
  - by repeat split.
  - apply (bool_decide_unpack _). by vm_compute.
  - apply (bool_decide_unpack _). by vm_compute.
Qed.

(** C4, as amended, on the cache that holds the nodes 1, 2 and 3, touched
    in this order, with a budget of 300, the node 3 being the child of the
    node 1: the least recent node 1 goes with its child, the most recent
    node of the cache, and the node 2 is left. *)
Lemma freeMemory_tests_size_on_entry_witness :
  LRU.numPoints_by_id (Node := Z) ∧
  LRU.repr (Scenario.cache123 300) Scenario.items123 ∧
  (0 ≤ LRU.pointBudget (Scenario.cache123 300))%Z ∧
  LRU.size (Scenario.cache123 300) ≤ 3 ∧
  Eviction.subtree 1%Z = [1; 1; 3]%Z ∧
  ∃ c', LRU.exec (LRU.freeMemory 3) (Scenario.cache123 300) = Ok c' ∧
        LRU.forward c' = Some [2]%Z ∧
        LRU.has 1%Z c' = false ∧
        LRU.has 3%Z c' = false ∧
        (LRU.numPoints c' ≤ 2 * LRU.pointBudget c')%Z.
Proof.
  split; [exact ztree_numPoints_by_id|].
  split; [apply ztree_cache123_repr|].
  split; [simpl; lia|].
  split; [vm_compute; lia|].
  split; [reflexivity|].
  destruct (freeMemory_tests_size_on_entry (Scenario.cache123 300) Scenario.items123 3)
    as (c' & ls' & Hrun & _ & _ & _ & _ & Hpost & _ & Hf & He & Hgone);
    [exact ztree_numPoints_by_id|apply ztree_cache123_repr|simpl; lia|vm_compute; lia|].
  exists c'. split; [exact Hrun|].
  assert (1 < LRU.size (Scenario.cache123 300)) as Hsz by (vm_compute; lia).
  specialize (He Hsz).
  split; [rewrite Hf, <-He; reflexivity|].
  assert (LRU.numPoints (Scenario.cache123 300)
          > 2 * LRU.pointBudget (Scenario.cache123 300))%Z as Hover by (simpl; lia).
  split; [apply (Hgone Hsz Hover 1%Z eq_refl); vm_compute; left|].
  split; [apply (Hgone Hsz Hover 1%Z eq_refl); vm_compute; right; right; left|].
  exact (Hpost Hsz).
Defined.
End subtree_eviction.

(** C5 on the touches of the nodes 1, 2, 3, 0 (not loaded) and 1. *)
Lemma touch_recency_order_witness :
  ∃ c, LRU.exec (LRU.touchAll [1; 2; 3; 0; 1]%Z) (LRU.new 1000) = Ok c ∧
       LRU.forward c = Some [2; 3; 1]%Z ∧
       LRU.backward c = Some [1; 3; 2]%Z ∧
       LRU.size c = 3 ∧
       LRU.numPoints c = 1200%Z.
Proof.
  destruct (touch_recency_order 1000 [1; 2; 3; 0; 1]%Z)
    as (c & Hrun & Hf & Hb & Hs & Hn & _).
  { intros a a' _ _ _ _ Hid. exact Hid. }
  exists c. split_and!; [exact Hrun|exact Hf|exact Hb|exact Hs|exact Hn].
Defined.

(** C10 on the cache that holds the nodes 1 and 2, for the node 3. *)
Lemma remove_without_item_witness :
  LRU.has 3%Z (Scenario.cache12 100) = false ∧
  LRU.remove 3%Z (Scenario.cache12 100) = Ok ((), Scenario.cache12 100).
Proof.
  split; [reflexivity|].
  apply (remove_without_item (Scenario.cache12 100) 3%Z). reflexivity.
Defined.

(** C1 on the octree A (60 points) with the children B (50 points) and
    C (10 points), under an orthographic camera: A is popped first, as the
    root; it is promoted and its children are pushed, B with the larger
    weight. *)
Lemma budget_stops_traversal_witness :
  ∃ a b e,
    TreeNode.id (Potree.node a) = 1%Z ∧ TreeNode.id (Potree.node b) = 2%Z ∧
    Potree.visited (Scenario.potree 100) Scenario.budgetStructures Scenario.camera
      Scenario.renderer 5 Scenario.budgetFrame = [(a, e); (b, Potree.Break)] ∧
    ∃ r pointClouds' p',
      Potree.updateVisibility 5 (Scenario.potree 100) Scenario.budgetClouds
        Scenario.camera Scenario.renderer = Ok (r, pointClouds', p') ∧
      Potree.result_numVisiblePoints r = 60%Z.
Proof.
  eexists _, _, _.
  split; [|split; [|eapply (budget_stops_traversal (Scenario.potree 100)
                               Scenario.budgetClouds Scenario.camera Scenario.renderer)]].
  3: reflexivity.
  3: vm_compute; reflexivity.
  3: reflexivity.
  3: vm_compute; reflexivity.
  3: left; reflexivity.
  3: vm_compute; reflexivity.
  3: reflexivity.
  3: lia.
  all: reflexivity.
Defined.

(** C6 is false for a failed node outside the frustum: the root of the
    cloud has [failed] set, is a geometry node without a parent, and is
    popped; the iteration ends at the [continue] of the culling tests, and
    the result has [nodeLoadFailed = false].  It is false as well for a
    node that has both [failed] and [loaded] set: below the cap of
    promotions the node is promoted and is visible. *)
Lemma failed_node_culled_unreported :
  (TreeNode.failed Scenario.failedFarNode = true ∧
   TreeNode.isGeometryNode Scenario.failedFarNode = true ∧
   Potree.visited (Scenario.potree 100)
     (Scenario.failedStructures Scenario.failedFarNode)
     Scenario.camera Scenario.renderer 5
     (Potree.initialFrame (Scenario.potree 100)
        (Scenario.failedStructures Scenario.failedFarNode))
   = [(Scenario.failedItem Scenario.failedFarNode, Potree.Culled)] ∧
   ∃ r pointClouds' p',
     Potree.updateVisibility 5 (Scenario.potree 100)
       [Scenario.cloud Scenario.failedFarNode 0 true] Scenario.camera
       Scenario.renderer = Ok (r, pointClouds', p') ∧
     Potree.result_nodeLoadFailed r = false) ∧
  (TreeNode.failed Scenario.failedLoadedNode = true ∧
   TreeNode.isGeometryNode Scenario.failedLoadedNode = true ∧
   ∃ r pointClouds' p',
     Potree.updateVisibility 5 (Scenario.potree 100)
       [Scenario.cloud Scenario.failedLoadedNode 0 true] Scenario.camera
       Scenario.renderer = Ok (r, pointClouds', p') ∧
     TreeNode.id <$> Potree.result_visibleNodes r = [7%Z] ∧
     Potree.result_nodeLoadFailed r = false).
Proof.
  split.
  - split; [reflexivity|]. split; [reflexivity|]. split; [by vm_compute|].
    eexists _, _, _. split; [by vm_compute|reflexivity].
  - split; [reflexivity|]. split; [reflexivity|].
    eexists _, _, _. split; [by vm_compute|]. split; reflexivity.
Qed.

(** C6, as amended, for the failed node inside the frustum. *)
Lemma failed_node_is_skipped_witness :
  ∃ s', Potree.visit (Scenario.potree 100) (Scenario.failedStructures Scenario.failedNode)
          Scenario.camera Scenario.renderer (Scenario.failedItem Scenario.failedNode)
          (Scenario.failedFrame Scenario.failedNode) = Ok (Potree.Failed, s') ∧
        Potree.nodeLoadFailed s' = true ∧
        Potree.queue s' = Potree.queue (Scenario.failedFrame Scenario.failedNode) ∧
        Potree.unloadedGeometry s' = [].
Proof.
  destruct (failed_node_is_skipped (Scenario.potree 100)
              (Scenario.failedStructures Scenario.failedNode) Scenario.camera
              Scenario.renderer (Scenario.failedItem Scenario.failedNode)
              (Scenario.failedFrame Scenario.failedNode)
              (Scenario.cloud Scenario.failedNode 0 true) (-10, 10)%Z)
    as (s' & Hv & Hf & _ & Hq & _ & Hu & _);
    [simpl; lia|reflexivity|exact I|reflexivity|reflexivity|reflexivity
    |reflexivity|exact I|reflexivity|left; reflexivity|].
  exists s'. split_and!; [exact Hv|exact Hf|exact Hq|exact Hu].
Defined.



(** The invariants on the frame of the budget scenario. *)
Lemma traversal_invariants_witness :
  (0 ≤ Potree.pointBudget (Scenario.potree 100))%Z ∧
  Potree.promotions
    (Potree.visited (Scenario.potree 100) Scenario.budgetStructures Scenario.camera
       Scenario.renderer 5 Scenario.budgetFrame) ≤ MAX_LOADS_TO_GPU.
Proof.
  split; [simpl; lia|].
  apply (traversal_invariants (Scenario.potree 100) Scenario.budgetClouds Scenario.camera
           Scenario.renderer 5). simpl. lia.
Defined.

(** C2 fails after a cloud that is not initialized: the root of the second
    cloud lies outside the frustum of its cloud, and is counted as visible
    all the same, because [frustums[1]] is the frustum of the third cloud,
    which its box intersects. *)
Lemma frustum_of_another_cloud :
  frustumIntersectsBox
    (Potree.cloudFrustum Scenario.camera (Scenario.cloud Scenario.farNode 0 true))
    (TreeNode.boundingBox Scenario.farNode) = false ∧
  Potree.frustums (Potree.updateVisibilityStructures (Q := Scenario.Queue)
                     Scenario.misalignedClouds Scenario.camera) !! 1
  = Some (Potree.cloudFrustum Scenario.camera
            (Scenario.cloud Scenario.nodeA 100 false)) ∧
  ∃ r pointClouds' p',
    Potree.updateVisibility (Q := Scenario.Queue) 5 (Scenario.potree 100)
      Scenario.misalignedClouds Scenario.camera Scenario.renderer
      = Ok (r, pointClouds', p') ∧
    Potree.result_numVisiblePoints r = 60%Z ∧
    TreeNode.id <$> Potree.result_visibleNodes r = [6%Z].
Proof.
  split; [reflexivity|]. split; [reflexivity|].
  eexists _, _, _. split; [by vm_compute|]. split; reflexivity.
Qed.
